(** * Smart Parking platform: occupancy store, analytics engine, broadcast hub

    A shallow embedding of the backend's core:
    - [app/models/parking.py]      (ParkingZone and its derived properties),
    - [app/services/__init__.py]   (ParkingService.record_event),
    - [app/api/events.py]          (the create_event endpoint),
    - [app/ml/occupancy_analyzer.py] (EMA, z-score anomalies, arrival rate,
      forecasting),
    - [app/api/websocket.py]       (ConnectionManager.broadcast).

    Python [int] is [Z]; Python [float] is idealised as a real number ([R]),
    so rounding error, infinities and NaN are outside the model; [dict] and
    [set] are stdpp's [gmap] and [gset]; exceptions are an explicit result
    type threaded with the database session. Theorems over [R] state the
    computation as the code performs it, or properties that do not depend
    on the arithmetic being exact.

    The hub's set of connections is shared by all asyncio tasks: what the
    other tasks do to it while [broadcast] is suspended in a send is an
    explicit schedule, and the loop of [broadcast] is the set iterator of
    the live set, with its size check at every step. *)

From Stdlib Require Import ZArith List Lia Reals Lra String.
From stdpp Require Import gmap strings list pretty sorting.

Local Open Scope Z_scope.
Set Warnings "-clear-no-such-hyp".

(** ** Exceptions and the session monad *)

Inductive exn : Type :=
  | ValueError (msg : string)
  | SendError
  | RuntimeError (msg : string).

Inductive result (A : Type) : Type :=
  | Ok (a : A)
  | Raise (e : exn).
Arguments Ok {A} a.
Arguments Raise {A} e.

(** ** app/models/parking.py *)

Module Models.

Record ParkingZone : Type := mkZone {
  zone_code : string;
  total_spots : Z;
  occupied_spots : Z
}.

(** [max(0, self.total_spots - self.occupied_spots)] *)
Definition available_spots (self : ParkingZone) : Z :=
  Z.max 0 (total_spots self - occupied_spots self).

Definition set_occupied_spots (self : ParkingZone) (v : Z) : ParkingZone :=
  {| zone_code := zone_code self;
     total_spots := total_spots self;
     occupied_spots := v |}.

(** A row of [parking_events]; the columns the database fills in itself
    (id, timestamp) are left out. *)
Record ParkingEvent : Type := mkEvent {
  zone_id : Z;
  event_type : string;
  license_plate : option string
}.

(** The data-model invariant of a zone. *)
Definition zone_ok (z : ParkingZone) : Prop :=
  0 <= occupied_spots z <= total_spots z.

End Models.

(** ** app/services/__init__.py *)

Module Services.
Import Models.

(** The session: the zone table keyed by primary key, and the event rows
    added so far (most recent last). *)
Record Db : Type := mkDb {
  zones : gmap Z ParkingZone;
  events : list ParkingEvent
}.

(** A computation in the session that may raise. The session state is
    returned in either case, as it stands when the call ends. *)
Definition M (A : Type) : Type := Db -> result A * Db.

Definition ret {A} (a : A) : M A := fun db => (Ok a, db).
Definition raise {A} (e : exn) : M A := fun db => (Raise e, db).
Definition bind {A B} (m : M A) (k : A -> M B) : M B :=
  fun db =>
    match m db with
    | (Ok a, db') => k a db'
    | (Raise e, db') => (Raise e, db')
    end.

Notation "'let!' x ':=' m 'in' k" := (bind m (fun x => k))
  (at level 10, x name, m at level 100, k at level 200).
Notation "'do!' m 'in' k" := (bind m (fun _ => k))
  (at level 10, m at level 100, k at level 200).

(** [select(ParkingZone).where(ParkingZone.id == zone_id)] *)
Definition get_zone (zid : Z) : M (option ParkingZone) :=
  fun db => (Ok (zones db !! zid), db).

(** [self.db.add(event)] *)
Definition db_add (e : ParkingEvent) : M unit :=
  fun db => (Ok tt, {| zones := zones db; events := events db ++ [e] |}).

(** Assignment to [zone.occupied_spots]: the zone object is the session's
    row for that key, so the write lands in the table. *)
Definition write_occupied (zid : Z) (zone : ParkingZone) (v : Z) : M unit :=
  fun db =>
    (Ok tt, {| zones := <[zid := set_occupied_spots zone v]> (zones db);
               events := events db |}).

(** Parameter of the request: the pydantic model [ParkingEventCreate]. *)
Definition ParkingEventCreate : Type := ParkingEvent.

Definition record_event (event_data : ParkingEventCreate) : M ParkingEvent :=
  let! zone := get_zone (zone_id event_data) in
  match zone with
  | None =>
      raise (ValueError ("Zone " +:+ pretty (zone_id event_data) +:+ " not found"))
  | Some zone =>
      let event := event_data in
      do! db_add event in
      do! (if decide (event_type event_data = "entry") then
         write_occupied (zone_id event_data) zone
           (Z.min (occupied_spots zone + 1) (total_spots zone))
       else if decide (event_type event_data = "exit") then
         write_occupied (zone_id event_data) zone
           (Z.max (occupied_spots zone - 1) 0)
       else ret tt) in
      ret event
  end.

(** app/api/events.py, [create_event]: a [ValueError] becomes HTTP 400,
    success is HTTP 201. *)
Definition create_event (event_data : ParkingEventCreate) (db : Db)
  : Z * Db :=
  match record_event event_data db with
  | (Ok _, db') => (201, db')
  | (Raise (ValueError _), db') => (400, db')
  | (Raise _, db') => (500, db')
  end.

(** The session after a request: what [record_event] leaves behind. *)
Definition step (db : Db) (ev : ParkingEventCreate) : Db :=
  snd (record_event ev db).

(** The sessions reached after each event of a sequence, in order. *)
Fixpoint trace (db : Db) (evs : list ParkingEventCreate) : list Db :=
  match evs with
  | [] => []
  | ev :: evs' => step db ev :: trace (step db ev) evs'
  end.

(** Proof-side summary of the occupancy update of [record_event] on the
    zone table, for a zone [z] found under the event's id. *)
Definition zones_after (ev : ParkingEventCreate) (z : ParkingZone)
  (zs : gmap Z ParkingZone) : gmap Z ParkingZone :=
  if decide (event_type ev = "entry") then
    <[zone_id ev := set_occupied_spots z
        (Z.min (occupied_spots z + 1) (total_spots z))]> zs
  else if decide (event_type ev = "exit") then
    <[zone_id ev := set_occupied_spots z (Z.max (occupied_spots z - 1) 0)]> zs
  else zs.

End Services.

Import Models Services.


(** ** Numbers of the analytics engine

    Floats are real numbers here; [numpy] and the builtins the analyzer
    calls are given by their mathematical meaning. *)

Module Numeric.
Local Open Scope R_scope.

#[global] Instance Rlt_decision : RelDecision Rlt := Rlt_dec.
#[global] Instance Rgt_decision : RelDecision Rgt := Rgt_dec.
#[global] Instance Rle_decision : RelDecision Rle := Rle_dec.
#[global] Instance Req_decision : EqDecision R := Req_dec_T.

Definition Rsum (l : list R) : R := fold_right Rplus 0 l.

(** [np.mean] *)
Definition np_mean (l : list R) : R := Rsum l / INR (length l).

(** [np.std]: the population standard deviation (ddof = 0). *)
Definition np_std (l : list R) : R :=
  sqrt (np_mean (map (fun x => Rabs (x - np_mean l) ^ 2) l)).

(** [np.clip(v, lo, hi)] *)
Definition np_clip (v lo hi : R) : R := Rmin (Rmax v lo) hi.

(** Rounding a real to the nearest integer, ties to the even one. *)
Definition round_half_even (y : R) : Z :=
  let f := Int_part y in
  let d := y - IZR f in
  if decide (d < 1 / 2) then f
  else if decide (1 / 2 < d) then (f + 1)%Z
  else if Z.even f then f else (f + 1)%Z.

(** The builtin [round(x, ndigits)] on a float. *)
Definition round (x : R) (ndigits : nat) : R :=
  IZR (round_half_even (x * 10 ^ ndigits)) / 10 ^ ndigits.

(** [np.polyfit(x, y, 1)[0]]: the slope of the least-squares line. *)
Definition polyfit_slope (xs ys : list R) : R :=
  let mx := np_mean xs in
  let my := np_mean ys in
  Rsum (map (fun '(x, y) => (x - mx) * (y - my)) (combine xs ys))
  / Rsum (map (fun x => (x - mx) ^ 2) xs).

(** [l[start:stop]] for indices that are not negative. *)
Definition slice {A} (l : list A) (start stop : nat) : list A :=
  firstn (stop - start) (skipn start l).

(** [range(n)] for a Python int. *)
Definition range (n : Z) : list nat := seq 0 (Z.to_nat n).

(** A [datetime] is its number of microseconds since the epoch (UTC), a
    [timedelta] a number of microseconds. *)
Definition datetime : Type := Z.
Definition timedelta : Type := Z.

Definition timedelta_hours (h : Z) : timedelta := (h * 3600000000)%Z.
Definition total_seconds (td : timedelta) : R := IZR td / 1000000.
Definition hour (ts : datetime) : Z := ((ts / 3600000000) mod 24)%Z.

(** The builtin [sorted] on datetimes. *)
Definition sorted (l : list datetime) : list datetime := merge_sort Z.le l.

End Numeric.

(** ** app/ml/occupancy_analyzer.py *)

Module Analyzer.
Import Numeric.
Local Open Scope R_scope.

Record AnomalyResult : Type := mkAnomaly {
  is_anomaly : bool;
  z_score : R;
  expected_value : R;
  actual_value : R;
  severity : string
}.

Record ForecastResult : Type := mkForecast {
  timestamps : list datetime;
  predicted_occupancy : list R;
  confidence_lower : list R;
  confidence_upper : list R
}.

Record OccupancyAnalyzer : Type := mkAnalyzer {
  ema_alpha : R;
  anomaly_threshold : R
}.

(** [__init__] *)
Definition init : OccupancyAnalyzer :=
  {| ema_alpha := 3 / 10; anomaly_threshold := 5 / 2 |}.

(** [alpha or self.ema_alpha]: [None] and [0.0] are both falsy. *)
Definition alpha_or (alpha : option R) (dflt : R) : R :=
  match alpha with
  | None => dflt
  | Some a => if decide (a = 0) then dflt else a
  end.

(** The loop [for i in range(1, len(data)): ema.append(...)], with [rest]
    the items [data[1:]] still to visit. *)
Fixpoint ema_loop (a : R) (rest : list R) (ema : list R) : list R :=
  match rest with
  | [] => ema
  | x :: rest' => ema_loop a rest' (ema ++ [a * x + (1 - a) * List.last ema 0])
  end.

(** The recurrence of the docstring, EMA_t = a x_t + (1 - a) EMA_(t-1),
    unrolled over the items that follow a previous value [prev]. *)
Fixpoint ema_spec (a prev : R) (rest : list R) : list R :=
  match rest with
  | [] => []
  | x :: rest' =>
      let e := a * x + (1 - a) * prev in
      e :: ema_spec a e rest'
  end.

Definition compute_ema (self : OccupancyAnalyzer) (data : list R)
  (alpha : option R) : list R :=
  let a := alpha_or alpha (ema_alpha self) in
  match data with
  | [] => []
  | x0 :: rest => ema_loop a rest [x0]
  end.

(** The body of the loop of [detect_anomalies] at index [i]. *)
Definition detect_at (self : OccupancyAnalyzer) (arr : list R)
  (window_size : Z) (i : nat) : AnomalyResult :=
  let start := Z.to_nat (Z.max 0 (Z.of_nat i - window_size)) in
  let window := slice arr start (i + 1) in
  let xi := nth i arr 0 in
  if decide (length window < 3)%nat then
    {| is_anomaly := false; z_score := 0;
       expected_value := xi; actual_value := xi; severity := "low" |}
  else
    let mean :=
      if decide (1 < length window)%nat then np_mean (removelast window)
      else hd 0 window in
    let std :=
      if decide (1 < length window)%nat then np_std (removelast window)
      else 1 in
    let std := Rmax std (1 / 1000000) in
    let z := (xi - mean) / std in
    let flagged := bool_decide (Rabs z > anomaly_threshold self) in
    let sev :=
      if decide (Rabs z > 4) then "high"
      else if decide (Rabs z > 3) then "medium"
      else "low" in
    {| is_anomaly := flagged;
       z_score := round z 4;
       expected_value := round mean 2;
       actual_value := xi;
       severity := if flagged then sev else "low" |}.

Definition detect_anomalies (self : OccupancyAnalyzer) (values : list R)
  (window_size : Z) : list AnomalyResult :=
  fold_left (fun results i => results ++ [detect_at self values window_size i])
            (range (Z.of_nat (length values))) [].

(** The window of the loop body without its last item, as a slice. *)
Definition baseline (x : list R) (window_size : Z) (i : nat) : list R :=
  slice x (Z.to_nat (Z.max 0 (Z.of_nat i - window_size))) i.

(** The specification's reading of the detector, in its own words and
    without the helpers of the code. [b] is the baseline of [x] at index
    [i]: the items x[max(0, i - windowSize)], ..., x[i - 1], in that
    order, and nothing else. *)
Definition is_baseline (x : list R) (window_size : Z) (i : nat) (b : list R)
  : Prop :=
  let lo := Z.to_nat (Z.max 0 (Z.of_nat i - window_size)) in
  length b = (i - lo)%nat
  /\ forall k : nat, (k < length b)%nat -> b !! k = x !! (lo + k)%nat.




(** The gaps between consecutive sorted timestamps, in minutes. *)
Fixpoint inter_arrivals_of (sorted_times : list datetime) : list R :=
  match sorted_times with
  | t0 :: (t1 :: _) as rest =>
      (total_seconds (t1 - t0)%Z / 60) :: inter_arrivals_of rest
  | _ => []
  end.

Definition zero_rate : gmap string R :=
  {[ "lambda" := 0; "expected_per_hour" := 0; "std_dev" := 0 ]}.

Definition estimate_arrival_rate (self : OccupancyAnalyzer)
  (event_timestamps : list datetime) (interval_minutes : Z) : gmap string R :=
  if decide (length event_timestamps < 2)%nat then zero_rate
  else
    let sorted_times := sorted event_timestamps in
    let inter_arrivals := inter_arrivals_of sorted_times in
    if decide (inter_arrivals = [] \/ np_mean inter_arrivals = 0) then zero_rate
    else
      let total_time_hours :=
        total_seconds (List.last sorted_times 0 - hd 0 sorted_times)%Z / 3600 in
      let total_time_hours := Rmax total_time_hours (1 / 60) in
      let lambda_rate := INR (length event_timestamps) / total_time_hours in
      {[ "lambda" := round lambda_rate 4;
         "expected_per_hour" := round lambda_rate 2;
         "std_dev" := round (sqrt lambda_rate) 4;
         "mean_inter_arrival_min" := round (np_mean inter_arrivals) 2 ]}.

(** Step 1 of the forecast, first loop: the rates bucketed by hour of day. *)
Definition group_by_hour (pairs : list (R * datetime)) : gmap Z (list R) :=
  fold_left (fun acc '(rate, ts) =>
               <[hour ts := default [] (acc !! hour ts) ++ [rate]]> acc)
            pairs ∅.

(** The body of the forecast loop at step [i]: predicted value, lower and
    upper bound. *)
Definition forecast_point (hourly_avg hourly_std : gmap Z R) (slope : R)
  (now : datetime) (i : nat) : R * R * R :=
  let future_time := (now + timedelta_hours (Z.of_nat i + 1))%Z in
  let baseline := default 50 (hourly_avg !! hour future_time) in
  let trend_adj := slope * (INR i + 1) * (1 / 2) in
  let predicted := np_clip (baseline + trend_adj) 0 100 in
  let std := default 10 (hourly_std !! hour future_time) in
  let ci_width := std * (196 / 100) in
  (round predicted 2,
   round (Rmax 0 (predicted - ci_width)) 2,
   round (Rmin 100 (predicted + ci_width)) 2).

Definition forecast_occupancy (self : OccupancyAnalyzer)
  (historical_rates : list R) (timestamps : list datetime)
  (horizon_hours : Z) (now : datetime) : ForecastResult :=
  if decide (length historical_rates < 24)%nat then
    let future_times :=
      map (fun i => (now + timedelta_hours (Z.of_nat i))%Z) (range horizon_hours) in
    let current_rate := List.last historical_rates 50 in
    {| timestamps := future_times;
       predicted_occupancy := replicate (Z.to_nat horizon_hours) current_rate;
       confidence_lower :=
         replicate (Z.to_nat horizon_hours) (Rmax 0 (current_rate - 15));
       confidence_upper :=
         replicate (Z.to_nat horizon_hours) (Rmin 100 (current_rate + 15)) |}
  else
    let groups := group_by_hour (combine historical_rates timestamps) in
    let hourly_std :=
      (fun values => if decide (1 < length values)%nat then np_std values else 10)
        <$> groups in
    let hourly_avg := np_mean <$> groups in
    let recent :=
      if decide (6 <= length historical_rates)%nat
      then skipn (length historical_rates - 6) historical_rates
      else historical_rates in
    let x := map INR (seq 0 (length recent)) in
    let slope :=
      if decide (2 <= length recent)%nat then polyfit_slope x recent else 0 in
    fold_left
      (fun '(mkForecast forecast_times forecast_values conf_lower conf_upper) i =>
         let '(p, lo, hi) := forecast_point hourly_avg hourly_std slope now i in
         {| timestamps :=
              forecast_times ++ [(now + timedelta_hours (Z.of_nat i + 1))%Z];
            predicted_occupancy := forecast_values ++ [p];
            confidence_lower := conf_lower ++ [lo];
            confidence_upper := conf_upper ++ [hi] |})
      (range horizon_hours)
      {| timestamps := []; predicted_occupancy := [];
         confidence_lower := []; confidence_upper := [] |}.

(** A forecast point is well formed when the prediction lies between its
    bounds and is a percentage. *)
Definition point_ok (p lo hi : R) : Prop :=
  lo <= p <= hi /\ 0 <= p <= 100.

(** Every point of a forecast (the items of the three series at the same
    index) is well formed. *)
Definition forecast_ok (r : ForecastResult) : Prop :=
  forall (i : nat) (p lo hi : R),
    predicted_occupancy r !! i = Some p ->
    confidence_lower r !! i = Some lo ->
    confidence_upper r !! i = Some hi ->
    point_ok p lo hi.

End Analyzer.

Import Numeric Analyzer.

(** ** app/api/websocket.py *)

Module Websocket.

(** A [WebSocket] object is known by its identity; a message is the dict
    handed to [send_json], as its JSON text. *)
Definition WebSocket : Type := nat.
Definition message : Type := string.

(** The peers behind the connections: those whose socket still accepts a
    send, and what each peer has received so far (oldest first). *)
Record Net : Type := mkNet {
  healthy : gset WebSocket;
  inbox : gmap WebSocket (list message)
}.

Record ConnectionManager : Type := mkManager {
  active_connections : gset WebSocket
}.

Definition received (net : Net) (conn : WebSocket) : list message :=
  default [] (inbox net !! conn).

(** [await conn.send_json(message)]: delivers to a healthy peer, raises on
    a broken one. *)
Definition send_json (conn : WebSocket) (msg : message) (net : Net)
  : result unit * Net :=
  if decide (conn ∈ healthy net) then
    (Ok tt, {| healthy := healthy net;
               inbox := <[conn := received net conn ++ [msg]]> (inbox net) |})
  else (Raise SendError, net).

(** [disconnect]: [self.active_connections.discard(websocket)] *)
Definition disconnect (self : ConnectionManager) (websocket : WebSocket)
  : ConnectionManager :=
  {| active_connections := active_connections self ∖ {[websocket]} |}.

(** [connect], after the handshake was accepted:
    [self.active_connections.add(websocket)]. *)
Definition connect (self : ConnectionManager) (websocket : WebSocket)
  : ConnectionManager :=
  {| active_connections := active_connections self ∪ {[websocket]} |}.

(** What another task does to [manager.active_connections] while a
    broadcast is suspended in [await conn.send_json(...)]: a client
    connects, or a client goes away ([disconnect], or the discard of a
    failed [send_personal]). *)
Inductive hub_action : Type :=
  | Connects (websocket : WebSocket)
  | Disconnects (websocket : WebSocket).

(** The schedule of the other tasks: for the send to each connection, the
    action (at most one) that lands on the set during that suspension. *)
Definition interference : Type := WebSocket -> option hub_action.

Definition apply_interference (a : option hub_action) (self : ConnectionManager)
  : ConnectionManager :=
  match a with
  | None => self
  | Some (Connects c) => connect self c
  | Some (Disconnects c) => disconnect self c
  end.

(** The loop [for conn in self.active_connections] of [broadcast], from one
    call of the set iterator's [next] on. The loop runs over the live set
    itself, not over a copy: [si_used] is the size the iterator recorded
    when the loop started and [order] the connections it has yet to yield;
    [next] raises [RuntimeError] when the set has another size by then, and
    that happens outside the [try]. In the body the send is inside [try],
    [dead.add(conn)] under [except Exception], and the other tasks run
    while the send is awaited. *)
Fixpoint broadcast_loop (env : interference) (msg : message) (si_used : nat)
  (order : list WebSocket) (self : ConnectionManager) (dead : gset WebSocket)
  (net : Net) {struct order}
  : result unit * ConnectionManager * gset WebSocket * Net :=
  if decide (size (active_connections self) = si_used) then
    match order with
    | [] => (Ok tt, self, dead, net)
    | conn :: order' =>
        let self' := apply_interference (env conn) self in
        match send_json conn msg net with
        | (Ok _, net') =>
            broadcast_loop env msg si_used order' self' dead net'
        | (Raise _, net') =>
            broadcast_loop env msg si_used order' self' (dead ∪ {[conn]}) net'
        end
    end
  else (Raise (RuntimeError "Set changed size during iteration"),
        self, dead, net).

(** [broadcast], under a schedule of the other tasks: the loop, then
    [self.active_connections -= dead] when the loop ran to its end; an
    exception of the loop leaves the call before the pruning. *)
Definition broadcast (env : interference) (self : ConnectionManager)
  (msg : message) (net : Net) : result unit * ConnectionManager * Net :=
  match broadcast_loop env msg (size (active_connections self))
          (elements (active_connections self)) self ∅ net with
  | (Ok _, self', dead, net') =>
      (Ok tt, {| active_connections := active_connections self' ∖ dead |}, net')
  | (Raise e, self', _, net') => (Raise e, self', net')
  end.

(** No other task changes the live set of [self] during the sends of a
    broadcast. *)
Definition undisturbed (env : interference) (self : ConnectionManager) : Prop :=
  forall c, c ∈ active_connections self ->
            apply_interference (env c) self = self.

(** The schedule in which the other tasks leave the hub alone. *)
Definition quiet : interference := fun _ => None.

(** [send_personal] *)
Definition send_personal (self : ConnectionManager) (websocket : WebSocket)
  (msg : message) (net : Net) : result unit * ConnectionManager * Net :=
  match send_json websocket msg net with
  | (Ok _, net') => (Ok tt, self, net')
  | (Raise _, net') => (Ok tt, disconnect self websocket, net')
  end.

End Websocket.

Import Websocket.

(** ** Further code of the same files: reporting *)

(** app/schemas/__init__.py: the response models of the availability and
    dashboard endpoints (the columns the zone model leaves out, name and
    type, are left out here too). *)
Module Schemas.

Record ZoneAvailability : Type := mkAvailability {
  zone_code : string;
  total_spots : Z;
  available_spots : Z;
  occupancy_rate : R
}.

Record DashboardSummary : Type := mkSummary {
  total_zones : Z;
  summary_total_spots : Z;
  total_occupied : Z;
  total_available : Z;
  overall_occupancy_rate : R;
  active_cameras : Z;
  events_today : Z;
  zones : list ZoneAvailability
}.

End Schemas.

Module Reporting.
Local Open Scope R_scope.

(** app/models/parking.py, [ParkingZone.occupancy_rate] *)
Definition occupancy_rate (self : ParkingZone) : R :=
  if decide (Models.total_spots self = 0%Z) then 0
  else round (IZR (occupied_spots self) / IZR (Models.total_spots self) * 100) 2.

(** The builtin [sum] over Python ints. *)
Definition sum_int (l : list Z) : Z := fold_right Z.add 0%Z l.

(** [ParkingService.get_availability], on the rows [zones] that
    [list_zones(active_only=True)] returned (the query itself filters and
    orders by columns outside the model). *)
Definition get_availability (zones : list ParkingZone)
  : list Schemas.ZoneAvailability :=
  map (fun z =>
         {| Schemas.zone_code := Models.zone_code z;
            Schemas.total_spots := Models.total_spots z;
            Schemas.available_spots := Models.available_spots z;
            Schemas.occupancy_rate := occupancy_rate z |})
      zones.

(** [ParkingService.get_dashboard_summary], on the rows [zones] of
    [list_zones(active_only=True)] and the two counts its queries return
    ([... or 0] already applied). *)
Definition get_dashboard_summary (zones : list ParkingZone)
  (active_cameras events_today : Z) : Schemas.DashboardSummary :=
  let total_spots := sum_int (map Models.total_spots zones) in
  let total_occupied := sum_int (map occupied_spots zones) in
  let availability := get_availability zones in
  {| Schemas.total_zones := Z.of_nat (length zones);
     Schemas.summary_total_spots := total_spots;
     Schemas.total_occupied := total_occupied;
     Schemas.total_available := (total_spots - total_occupied)%Z;
     Schemas.overall_occupancy_rate :=
       (if decide (total_spots > 0)%Z
        then round (IZR total_occupied / IZR total_spots * 100) 2
        else 0);
     Schemas.active_cameras := active_cameras;
     Schemas.events_today := events_today;
     Schemas.zones := availability |}.

(** The session after a whole sequence of requests, each one handled by
    [record_event] on the session the previous one left. *)
Definition run (db : Db) (evs : list ParkingEventCreate) : Db :=
  fold_left step evs db.

End Reporting.

Import Reporting.

(** ** Further code of the analyzer: peak hours *)

Module PeakHours.
Local Open Scope R_scope.

(** One item of the list [find_peak_hours] returns (a dict with the keys
    "hour", "avg_occupancy_rate" and "label"). *)
Record PeakHour : Type := mkPeak {
  peak_hour : Z;
  avg_occupancy_rate : R;
  label : string
}.

(** A dict of lists in insertion order, as the list of its items:
    [if k not in d: d[k] = []] followed by [d[k].append(v)]. *)
Fixpoint odict_append (k : Z) (v : R) (d : list (Z * list R))
  : list (Z * list R) :=
  match d with
  | [] => [(k, [v])]
  | (k', vs) :: d' =>
      if decide (k' = k) then (k', vs ++ [v]) :: d'
      else (k', vs) :: odict_append k v d'
  end.

(** The first loop of [find_peak_hours]. *)
Definition hourly_data_of (pairs : list (R * datetime)) : list (Z * list R) :=
  fold_left (fun d '(rate, ts) => odict_append (hour ts) rate d) pairs [].

(** [sorted(items, key=lambda x: x[1], reverse=True)]: descending by the
    average, items with equal averages in their original order. *)
Fixpoint insert_desc (x : Z * R) (l : list (Z * R)) : list (Z * R) :=
  match l with
  | [] => [x]
  | y :: l' => if decide (x.2 < y.2) then y :: insert_desc x l' else x :: l
  end.

Definition sorted_desc (l : list (Z * R)) : list (Z * R) :=
  foldr insert_desc [] l.

(** [l[:n]] for a Python int: a negative [n] counts from the end. *)
Definition slice_to {A} (n : Z) (l : list A) : list A :=
  if decide (0 <= n)%Z then take (Z.to_nat n) l
  else take (length l - Z.to_nat (- n)) l.

(** The format [{h:02d}]. *)
Definition pad2 (h : Z) : string :=
  if decide (0 <= h < 10)%Z then "0" +:+ pretty h else pretty h.

Definition find_peak_hours (self : OccupancyAnalyzer) (rates : list R)
  (timestamps : list datetime) (top_n : Z) : list PeakHour :=
  let hourly_data := hourly_data_of (combine rates timestamps) in
  let hourly_averages := map (fun '(h, values) => (h, np_mean values)) hourly_data in
  let sorted_hours := sorted_desc hourly_averages in
  map (fun '(h, avg) =>
         {| peak_hour := h;
            avg_occupancy_rate := round avg 2;
            label := pad2 h +:+ ":00 - " +:+ pad2 ((h + 1) mod 24)%Z +:+ ":00" |})
      (slice_to top_n sorted_hours).

(** The rates observed at hour of day [h], in input order. *)
Definition rates_at (h : Z) (pairs : list (R * datetime)) : list R :=
  map fst (filter (fun p => hour p.2 = h) pairs).

End PeakHours.

Import PeakHours.

(** ** app/ml/vehicle_detector.py: aggregation of detections *)

Module Detector.

Record DetectedVehicle : Type := mkVehicle {
  bbox : Z * Z * Z * Z;
  vehicle_class : string;
  confidence : R;
  center : Z * Z
}.

(** [VehicleDetector.count_by_type]: a dict with the four known classes at
    0, then [counts[v.vehicle_class] += 1] for the vehicles whose class is
    a key. *)
Definition count_by_type (vehicles : list DetectedVehicle) : gmap string Z :=
  fold_left
    (fun counts v =>
       if decide (is_Some (counts !! vehicle_class v))
       then <[vehicle_class v := default 0 (counts !! vehicle_class v) + 1]> counts
       else counts)
    vehicles
    {[ "car" := 0; "truck" := 0; "motorcycle" := 0; "bus" := 0 ]}.

(** The classes the counter knows. *)
Definition known_classes : list string := ["car"; "truck"; "motorcycle"; "bus"].

(** How many of the vehicles have class [cls]. *)
Definition count_class (cls : string) (vehicles : list DetectedVehicle) : Z :=
  Z.of_nat (length (filter (fun v => vehicle_class v = cls) vehicles)).

End Detector.

Import Detector.

(** ** app/ml/plate_recognizer.py: cleaning of recognised plate text *)

From Stdlib Require Import Ascii.

Module Plates.

(** A text is a string of the characters with code points 0 to 255. *)
Definition code (c : ascii) : N := N_of_ascii c.

(** [str.isdigit] on the characters that survive the filter below, and
    membership in [A-Z]. *)
Definition isdigit (c : ascii) : bool := ((48 <=? code c) && (code c <=? 57))%N.
Definition is_upper (c : ascii) : bool := ((65 <=? code c) && (code c <=? 90))%N.
Definition is_lower (c : ascii) : bool := ((97 <=? code c) && (code c <=? 122))%N.

(** [str.upper] on one character, as far as the filter can see it: a-z go
    to A-Z, the sharp s (223) goes to "SS"; the upper case of any other
    character of this range is itself or lies outside [A-Z0-9]. *)
Definition upper_char (c : ascii) : list ascii :=
  if is_lower c then [ascii_of_N (code c - 32)]
  else if (code c =? 223)%N then ["S"%char; "S"%char]
  else [c].

(** [re.sub(r"[^A-Z0-9]", "", text.upper())] *)
Definition cleaned_of (text : string) : list ascii :=
  filter (fun c => is_upper c || isdigit c)
         (concat (map upper_char (list_ascii_of_string text))).

(** The dict [corrections]. *)
Definition corrections (c : ascii) : option ascii :=
  if decide (c = "O"%char) then Some "0"%char
  else if decide (c = "I"%char) then Some "1"%char
  else if decide (c = "S"%char) then Some "5"%char
  else if decide (c = "B"%char) then Some "8"%char
  else if decide (c = "G"%char) then Some "6"%char
  else None.

(** The body of the loop over [enumerate(result)] at index [i], on the list
    as the earlier iterations left it. *)
Definition fix_step (result : list ascii) (i : nat) : list ascii :=
  match result !! i with
  | None => result
  | Some char =>
      match corrections char with
      | None => result
      | Some d =>
          let prev_digit :=
            bool_decide (0 < i)%nat
            && from_option isdigit false (result !! (i - 1)%nat) in
          let next_digit :=
            bool_decide (i < length result - 1)%nat
            && from_option isdigit false (result !! (i + 1)%nat) in
          if prev_digit && next_digit then <[i := d]> result else result
      end
  end.

Definition clean_plate_text (text : string) : string :=
  let cleaned := cleaned_of text in
  let result := cleaned in
  string_of_list_ascii (fold_left fix_step (seq 0 (length result)) result).

(** Whether the character at index [j] is a digit. *)
Definition digit_at (l : list ascii) (j : nat) : bool :=
  from_option isdigit false (l !! j).

(** The character the loop leaves at index [j], read off the list it
    started from. *)
Definition fixed_char (l : list ascii) (j : nat) (c : ascii) : ascii :=
  match corrections c with
  | Some d =>
      if bool_decide (0 < j)%nat && digit_at l (j - 1) && digit_at l (j + 1)
      then d else c
  | None => c
  end.

End Plates.

Import Plates.

(** ** Sample sessions used to instantiate the theorems *)

Definition zoneA1 : ParkingZone :=
  {| zone_code := "A1"; total_spots := 2; occupied_spots := 2 |}.
Definition db0 : Db := {| zones := {[ 1 := zoneA1 ]}; events := [] |}.
Definition entry_at (zid : Z) : ParkingEventCreate :=
  {| zone_id := zid; event_type := "entry"; license_plate := None |}.
Definition exit_at (zid : Z) : ParkingEventCreate :=
  {| zone_id := zid; event_type := "exit"; license_plate := None |}.
Definition zoneB0 : ParkingZone :=
  {| zone_code := "B0"; total_spots := 5; occupied_spots := 0 |}.
Definition db1 : Db := {| zones := {[ 1 := zoneA1; 2 := zoneB0 ]}; events := [] |}.

(** Two quiet readings followed by a spike. *)
Definition spike : list R := [50; 50; 95]%R.

(** Two arrivals one hour apart (the later one listed first). *)
Definition two_arrivals : list datetime := [3600000000; 0]%Z.

(** A hub with two subscribers, of which only the first can be reached;
    the first has already received the greeting. *)
Definition hub2 : ConnectionManager := {| active_connections := {[1%nat; 2%nat]} |}.
Definition net2 : Net :=
  {| healthy := {[1%nat]}; inbox := {[1%nat := ["connected"]]} |}.

(** An event of a kind the service does not know, and a zone whose
    capacity was lowered below its occupancy. *)
Definition maintenance_at_1 : ParkingEventCreate :=
  {| zone_id := 1; event_type := "maintenance"; license_plate := None |}.
Definition zone_over : ParkingZone :=
  {| zone_code := "C3"; total_spots := 3; occupied_spots := 5 |}.
Definition db_over : Db := {| zones := {[ 3 := zone_over ]}; events := [] |}.

(** The verdict on the last of five equal readings. *)
Definition flat_verdict : AnomalyResult :=
  detect_at init (replicate 5 50%R) 24 4.

(** Three snapshots: a busy morning hour seen twice, a quiet night hour. *)
Definition peak_rates : list R := [85; 40; 75]%R.
Definition peak_times : list datetime :=
  [timedelta_hours 9; timedelta_hours 3; timedelta_hours 33].

(** Two cars and a bus seen in one frame. *)
Definition detections : list DetectedVehicle :=
  [ {| bbox := (0, 0, 80, 60); vehicle_class := "car";
       confidence := (9 / 10)%R; center := (40, 30) |};
    {| bbox := (100, 0, 260, 90); vehicle_class := "bus";
       confidence := (7 / 10)%R; center := (180, 45) |};
    {| bbox := (10, 100, 90, 160); vehicle_class := "car";
       confidence := (8 / 10)%R; center := (50, 130) |} ].

(** * Proofs *)

(** ** Zone store and event ingestion *)

Section ZoneStore.

Lemma record_event_known db ev z :
  zones db !! zone_id ev = Some z ->
  record_event ev db =
    (Ok ev, {| zones := zones_after ev z (zones db);
               events := events db ++ [ev] |}).
Proof.
  intros Hz. unfold record_event, bind, get_zone, zones_after. rewrite Hz.
  simpl. repeat case_decide; reflexivity.
Qed.

Lemma record_event_unknown db ev :
  zones db !! zone_id ev = None ->
  record_event ev db =
    (Raise (ValueError ("Zone " +:+ pretty (zone_id ev) +:+ " not found")), db).
Proof.
  intros Hz. unfold record_event, bind, get_zone. rewrite Hz. reflexivity.
Qed.

Lemma set_occupied_same z : set_occupied_spots z (occupied_spots z) = z.
Proof. destruct z; reflexivity. Qed.

Lemma step_known db ev z :
  zones db !! zone_id ev = Some z ->
  step db ev = {| zones := zones_after ev z (zones db);
                  events := events db ++ [ev] |}.
Proof. intros Hz. unfold step. rewrite (record_event_known _ _ _ Hz). reflexivity. Qed.

Lemma step_unknown db ev :
  zones db !! zone_id ev = None -> step db ev = db.
Proof. intros Hz. unfold step. rewrite (record_event_unknown _ _ Hz). reflexivity. Qed.

(** One request keeps a zone present and within its bounds, whichever zone
    and whatever kind the event names. *)
Lemma step_zone_ok db ev id z :
  zones db !! id = Some z -> zone_ok z ->
  exists z', zones (step db ev) !! id = Some z' /\ zone_ok z'
             /\ total_spots z' = total_spots z.
Proof.
  intros Hid Hok.
  destruct (zones db !! zone_id ev) as [z0|] eqn:Hev.
  - rewrite (step_known _ _ _ Hev). simpl. unfold zones_after.
    destruct (decide (zone_id ev = id)) as [Heq|Hne].
    + rewrite Heq in Hev |- *.
      assert (z0 = z) by congruence. subst z0.
      unfold zone_ok in *.
      repeat case_decide; rewrite ?lookup_insert_eq;
        eexists; (split; [first [reflexivity | eassumption]|]); simpl; lia.
    + repeat case_decide; rewrite ?lookup_insert_ne by done; eauto.
  - rewrite (step_unknown _ _ Hev). eauto.
Qed.

(** C1. A zone that starts with 0 <= occupied_spots <= total_spots is still
    present and still within 0 <= occupied_spots <= total_spots in the
    session reached after every request of any finite sequence of
    [record_event] calls (entries, exits, events for other or unknown zones). *)
Theorem record_event_preserves_bounds db id z (evs : list ParkingEventCreate) :
  zones db !! id = Some z -> zone_ok z ->
  Forall (fun db' => exists z', zones db' !! id = Some z' /\ zone_ok z')
         (trace db evs).
Proof.
  revert db z. induction evs as [|ev evs IH]; intros db z Hid Hok; simpl.
  - constructor.
  - destruct (step_zone_ok db ev id z Hid Hok) as (z' & Hid' & Hok' & _).
    constructor; eauto.
Qed.

Lemma record_event_preserves_bounds_witness :
  Forall (fun db' => exists z', zones db' !! 1 = Some z' /\ zone_ok z')
         (trace db0 [entry_at 1; exit_at 1; entry_at 7; exit_at 1; exit_at 1; exit_at 1]).
Proof.
  apply (record_event_preserves_bounds db0 1 zoneA1).
  - reflexivity.
  - unfold zone_ok; simpl; lia.
Defined.

(** C2. Clamp, not reject: for an existing zone, an entry at
    occupied_spots = total_spots returns the event without raising and
    leaves the zone table as it was (occupied_spots still total_spots); an
    exit at occupied_spots = 0 likewise leaves it at 0. *)
Theorem record_event_clamps db ev z :
  zones db !! zone_id ev = Some z ->
  (event_type ev = "entry" -> occupied_spots z = total_spots z ->
     record_event ev db =
       (Ok ev, {| zones := zones db; events := events db ++ [ev] |})
     /\ occupied_spots <$> zones (step db ev) !! zone_id ev = Some (total_spots z))
  /\
  (event_type ev = "exit" -> occupied_spots z = 0 ->
     record_event ev db =
       (Ok ev, {| zones := zones db; events := events db ++ [ev] |})
     /\ occupied_spots <$> zones (step db ev) !! zone_id ev = Some 0).
Proof.
  intros Hz.
  assert (Hfull : forall v, v = occupied_spots z ->
            <[zone_id ev := set_occupied_spots z v]> (zones db) = zones db).
  { intros v ->. rewrite set_occupied_same. by apply insert_id. }
  split; intros Hty Hocc.
  - assert (Hafter : zones_after ev z (zones db) = zones db).
    { unfold zones_after. rewrite decide_True by done. apply Hfull. lia. }
    rewrite (step_known _ _ _ Hz), (record_event_known _ _ _ Hz), Hafter.
    simpl. rewrite Hz. simpl. split; [reflexivity | congruence].
  - assert (Hafter : zones_after ev z (zones db) = zones db).
    { unfold zones_after. rewrite decide_False by (rewrite Hty; discriminate).
      rewrite decide_True by done. apply Hfull. lia. }
    rewrite (step_known _ _ _ Hz), (record_event_known _ _ _ Hz), Hafter.
    simpl. rewrite Hz. simpl. split; [reflexivity | congruence].
Qed.

Lemma record_event_clamps_witness :
  (record_event (entry_at 1) db1 =
     (Ok (entry_at 1), {| zones := zones db1; events := [entry_at 1] |})
   /\ occupied_spots <$> zones (step db1 (entry_at 1)) !! 1 = Some 2)
  /\
  (record_event (exit_at 2) db1 =
     (Ok (exit_at 2), {| zones := zones db1; events := [exit_at 2] |})
   /\ occupied_spots <$> zones (step db1 (exit_at 2)) !! 2 = Some 0).
Proof.
  split.
  - apply (proj1 (record_event_clamps db1 (entry_at 1) zoneA1 eq_refl));
      reflexivity.
  - apply (proj2 (record_event_clamps db1 (exit_at 2) zoneB0 eq_refl));
      reflexivity.
Defined.

(** C3. An event whose zone id is not in the zone table makes
    [record_event] raise a ValueError and leaves the session exactly as it
    was: no event row is added and no zone changes; the endpoint answers
    400. *)
Theorem record_event_unknown_zone db ev :
  zones db !! zone_id ev = None ->
  (exists msg, record_event ev db = (Raise (ValueError msg), db))
  /\ create_event ev db = (400, db).
Proof.
  intros Hz. unfold create_event. rewrite (record_event_unknown _ _ Hz).
  split; [eexists; reflexivity | reflexivity].
Qed.

Lemma record_event_unknown_zone_witness :
  (exists msg, record_event (entry_at 7) db1 = (Raise (ValueError msg), db1))
  /\ create_event (entry_at 7) db1 = (400, db1).
Proof. apply (record_event_unknown_zone db1 (entry_at 7)). reflexivity. Defined.

(** C10. [available_spots] is total_spots - occupied_spots when
    occupied_spots <= total_spots and 0 otherwise, for every zone state
    (also one with occupied_spots above total_spots); it is never negative. *)
Theorem available_spots_clamped (z : ParkingZone) :
  available_spots z =
    (if occupied_spots z <=? total_spots z
     then total_spots z - occupied_spots z else 0)
  /\ 0 <= available_spots z.
Proof.
  unfold available_spots.
  destruct (Z.leb_spec (occupied_spots z) (total_spots z)); lia.
Qed.

End ZoneStore.

(** ** Analytics engine *)

Section Ema.
Local Open Scope R_scope.

Lemma List_last_snoc {A} (l : list A) (x d : A) : List.last (l ++ [x]) d = x.
Proof. apply List.last_last. Qed.

Lemma List_last_default {A} (l : list A) (d : A) :
  List.last l d = default d (last l).
Proof.
  induction l as [|x [|y l] IH]; try reflexivity.
  change (List.last (x :: y :: l) d) with (List.last (y :: l) d).
  rewrite IH. reflexivity.
Qed.

(** The loop only ever appends: it extends [ema] by the recurrence started
    at its last item. *)
Lemma ema_loop_spec a rest ema :
  ema_loop a rest ema = ema ++ ema_spec a (List.last ema 0) rest.
Proof.
  revert ema. induction rest as [|x rest IH]; intros ema; simpl.
  - by rewrite app_nil_r.
  - rewrite IH, List_last_snoc, <- app_assoc. reflexivity.
Qed.

Lemma ema_spec_one prev rest : ema_spec 1 prev rest = rest.
Proof.
  revert prev. induction rest as [|x rest IH]; intros prev; simpl; [done|].
  replace (1 * x + (1 - 1) * prev) with x by lra. by rewrite IH.
Qed.

Lemma ema_spec_zero prev rest :
  ema_spec 0 prev rest = replicate (length rest) prev.
Proof.
  revert prev. induction rest as [|x rest IH]; intros prev; simpl; [done|].
  replace (0 * x + (1 - 0) * prev) with prev by lra. by rewrite IH.
Qed.

(** With a smoothing factor that is not zero, [compute_ema] is the
    recurrence EMA[0] = x[0], EMA[t] = a x[t] + (1 - a) EMA[t-1]. *)
Lemma compute_ema_recurrence self a x0 rest :
  a <> 0 ->
  compute_ema self (x0 :: rest) (Some a) = x0 :: ema_spec a x0 rest.
Proof.
  intros Ha. unfold compute_ema, alpha_or. rewrite decide_False by done.
  rewrite ema_loop_spec. reflexivity.
Qed.

(** The identity half of C4: with alpha = 1 the input comes back. *)
Lemma compute_ema_alpha_one self (x : list R) :
  compute_ema self x (Some 1) = x.
Proof.
  destruct x as [|x0 rest]; [reflexivity|].
  rewrite compute_ema_recurrence by lra. by rewrite ema_spec_one.
Qed.

(** An explicit alpha of zero is falsy, so the default of the analyzer is
    used in its place. *)
Lemma compute_ema_alpha_zero_is_default self (x : list R) :
  compute_ema self x (Some 0) = compute_ema self x None.
Proof. unfold compute_ema, alpha_or. by rewrite decide_True. Qed.

(** C4. [compute_ema] on [0; 10] with alpha = 0 returns [0; 3], the
    smoothing of the default alpha 0.3, and not the constant series [0; 0]
    that alpha = 0 in the recurrence gives: the item at index 1 differs from
    x[0]. *)
Theorem compute_ema_alpha_zero_diverges :
  compute_ema init [0; 10] (Some 0) = [0; 3]
  /\ ema_spec 0 0 [10] = [0]
  /\ nth 1 (compute_ema init [0; 10] (Some 0)) 0 <> nth 0 [0; 10] 0.
Proof.
  assert (H : compute_ema init [0; 10] (Some 0) = [0; 3]).
  { rewrite compute_ema_alpha_zero_is_default. unfold compute_ema, alpha_or.
    simpl. repeat f_equal. lra. }
  rewrite H. split; [reflexivity|]. split.
  - rewrite ema_spec_zero. reflexivity.
  - simpl. lra.
Qed.

End Ema.

(** Goals about [max], [min] and [np.clip] of reals: split on the
    comparisons and finish by linear arithmetic. *)
Ltac minmax_lra :=
  unfold point_ok, np_clip, Rmin, Rmax in *;
  repeat destruct (Rle_dec _ _); lra.

Section Rounding.
Local Open Scope R_scope.

Lemma round_half_even_near (y : R) :
  IZR (round_half_even y) - 1 / 2 <= y <= IZR (round_half_even y) + 1 / 2.
Proof.
  unfold round_half_even. destruct (base_Int_part y) as [Hlo Hhi].
  repeat case_decide; try destruct (Z.even _); rewrite ?plus_IZR; lra.
Qed.

Lemma round_half_even_mono (y1 y2 : R) :
  y1 <= y2 -> (round_half_even y1 <= round_half_even y2)%Z.
Proof.
  intros Hle.
  destruct (Z_le_gt_dec (round_half_even y1) (round_half_even y2)) as [|Hgt];
    [done|exfalso].
  assert (H1 : IZR (round_half_even y2) + 1 <= IZR (round_half_even y1)).
  { rewrite <- plus_IZR. apply IZR_le. lia. }
  pose proof (round_half_even_near y1) as [Hn1 _].
  pose proof (round_half_even_near y2) as [_ Hn2].
  assert (y1 = y2) by lra. subst y2. lia.
Qed.

Lemma round_half_even_IZR (n : Z) : round_half_even (IZR n) = n.
Proof.
  assert (Hf : Int_part (IZR n) = n) by (symmetry; apply Int_part_spec; lra).
  unfold round_half_even. rewrite Hf.
  rewrite decide_True by lra. reflexivity.
Qed.

Lemma pow10_pos (n : nat) : 0 < 10 ^ n.
Proof. apply pow_lt. lra. Qed.

Lemma round_mono (x y : R) (n : nat) : x <= y -> round x n <= round y n.
Proof.
  intros Hle. unfold round. pose proof (pow10_pos n) as Hp.
  apply Rmult_le_compat_r.
  - apply Rlt_le, Rinv_0_lt_compat, Hp.
  - apply IZR_le, round_half_even_mono. nra.
Qed.

Lemma round_IZR (z : Z) (n : nat) : round (IZR z) n = IZR z.
Proof.
  unfold round. pose proof (pow10_pos n) as Hp.
  replace (IZR z * 10 ^ n) with (IZR (z * 10 ^ Z.of_nat n)).
  - rewrite round_half_even_IZR, mult_IZR, <- pow_IZR. field. lra.
  - rewrite mult_IZR, <- pow_IZR. reflexivity.
Qed.

End Rounding.

Section Forecast.
Local Open Scope R_scope.

(** C7. With fewer than 24 historical rates the forecast has one point per
    horizon step, and at every step the predicted value is the last input
    rate (50 for an empty input), the lower bound is max(0, rate - 15) and
    the upper bound is min(100, rate + 15). *)
Theorem forecast_occupancy_flat self (rates : list R) (ts : list datetime)
  (horizon_hours : Z) (now : datetime) :
  (length rates < 24)%nat ->
  let r := forecast_occupancy self rates ts horizon_hours now in
  let rate := default 50 (last rates) in
  length (predicted_occupancy r) = Z.to_nat horizon_hours
  /\ length (timestamps r) = Z.to_nat horizon_hours
  /\ forall i : nat, (i < Z.to_nat horizon_hours)%nat ->
       predicted_occupancy r !! i = Some rate
       /\ confidence_lower r !! i = Some (Rmax 0 (rate - 15))
       /\ confidence_upper r !! i = Some (Rmin 100 (rate + 15)).
Proof.
  intros Hlen r rate. subst r rate. unfold forecast_occupancy.
  rewrite decide_True by done. simpl. rewrite <- List_last_default.
  rewrite length_replicate, length_map. unfold range. rewrite length_seq.
  split; [reflexivity|]. split; [reflexivity|].
  intros i Hi. repeat split; apply lookup_replicate_2; exact Hi.
Qed.

Lemma forecast_occupancy_flat_witness :
  let r := forecast_occupancy init [50; 60] [0%Z; 0%Z] 6 0%Z in
  length (predicted_occupancy r) = 6%nat
  /\ length (timestamps r) = 6%nat
  /\ forall i : nat, (i < 6)%nat ->
       predicted_occupancy r !! i = Some 60
       /\ confidence_lower r !! i = Some (Rmax 0 (60 - 15))
       /\ confidence_upper r !! i = Some (Rmin 100 (60 + 15)).
Proof.
  apply (forecast_occupancy_flat init [50; 60] [0%Z; 0%Z] 6 0%Z).
  simpl. lia.
Defined.

(** The forecast loop builds, index by index, the three components of
    [forecast_point] and the future timestamps. *)
Lemma forecast_fold (f : nat -> R * R * R) (g : nat -> datetime)
  (l : list nat) (acc : ForecastResult) :
  fold_left
    (fun '(mkForecast forecast_times forecast_values conf_lower conf_upper) i =>
       let '(p, lo, hi) := f i in
       {| timestamps := forecast_times ++ [g i];
          predicted_occupancy := forecast_values ++ [p];
          confidence_lower := conf_lower ++ [lo];
          confidence_upper := conf_upper ++ [hi] |})
    l acc
  = {| timestamps := timestamps acc ++ map g l;
       predicted_occupancy := predicted_occupancy acc ++ map (fun i => (f i).1.1) l;
       confidence_lower := confidence_lower acc ++ map (fun i => (f i).1.2) l;
       confidence_upper := confidence_upper acc ++ map (fun i => (f i).2) l |}.
Proof.
  revert acc. induction l as [|a l IH]; intros [ts ps los his]; simpl.
  - by rewrite !app_nil_r.
  - destruct (f a) as [[p lo] hi] eqn:Hf. rewrite IH. simpl.
    rewrite <- !app_assoc. reflexivity.
Qed.

Lemma np_std_nonneg (l : list R) : 0 <= np_std l.
Proof. apply sqrt_pos. Qed.

Lemma np_clip_bounds (v lo hi : R) : lo <= hi -> lo <= np_clip v lo hi <= hi.
Proof.
  intros Hle. minmax_lra.
Qed.

(** One step of the full forecast is well formed as soon as the seasonal
    deviations are not negative. *)
Lemma forecast_point_ok (hourly_avg hourly_std : gmap Z R) (slope : R)
  (now : datetime) (i : nat) :
  (forall h s, hourly_std !! h = Some s -> 0 <= s) ->
  let '(p, lo, hi) := forecast_point hourly_avg hourly_std slope now i in
  point_ok p lo hi.
Proof.
  intros Hstd. unfold forecast_point.
  set (ft := (now + timedelta_hours (Z.of_nat i + 1))%Z).
  set (v := default 50 (hourly_avg !! hour ft) + slope * (INR i + 1) * (1 / 2)).
  pose proof (np_clip_bounds v 0 100 ltac:(lra)) as Hp.
  set (p := np_clip v 0 100) in *.
  assert (Hs : 0 <= default 10 (hourly_std !! hour ft)).
  { destruct (hourly_std !! hour ft) as [s|] eqn:E; simpl; [eauto | lra]. }
  set (ci := default 10 (hourly_std !! hour ft) * (196 / 100)).
  assert (Hci : 0 <= ci) by (unfold ci; nra).
  unfold point_ok. repeat split.
  - apply round_mono. clear Hp. subst p. minmax_lra.
  - apply round_mono. clear Hp. subst p. minmax_lra.
  - rewrite <- (round_IZR 0 2). apply round_mono. lra.
  - rewrite <- (round_IZR 100 2). apply round_mono. lra.
Qed.

(** Where the bounds hold: every point of the forecast satisfies
    lower <= predicted <= upper and 0 <= predicted <= 100 when there are at
    least 24 historical rates (the prediction goes through [np.clip]), and
    with fewer when the rate the flat forecast repeats (the last input
    rate, 50 for an empty input) happens to lie in [0, 100]. *)
Lemma forecast_occupancy_bounded self (rates : list R) (ts : list datetime)
  (horizon_hours : Z) (now : datetime) :
  (24 <= length rates)%nat \/ 0 <= default 50 (last rates) <= 100 ->
  forecast_ok (forecast_occupancy self rates ts horizon_hours now).
Proof.
  intros Hin. unfold forecast_occupancy.
  destruct (decide (length rates < 24)%nat) as [Hshort|Hlong].
  - destruct Hin as [Hge|Hrate]; [lia|].
    rewrite List_last_default. set (rate := default 50 (last rates)) in *.
    intros i p lo hi. simpl. intros Hp Hlo Hhi.
    apply lookup_replicate_1 in Hp as [-> _].
    apply lookup_replicate_1 in Hlo as [-> _].
    apply lookup_replicate_1 in Hhi as [-> _].
    minmax_lra.
  - rewrite forecast_fold.
    match goal with
    | |- context [forecast_point ?a ?s ?k now] =>
        assert (Hf : forall j, let '(p, lo, hi) := forecast_point a s k now j in
                               point_ok p lo hi);
        [ intros j; apply forecast_point_ok | generalize dependent (forecast_point a s k now) ]
    end.
    + intros h s. rewrite lookup_fmap.
      destruct (group_by_hour _ !! h) as [values|]; simpl; [|discriminate].
      intros [= <-]. case_decide; [apply np_std_nonneg | lra].
    + intros f Hf i p lo hi. simpl. rewrite !list_lookup_fmap.
      destruct (range horizon_hours !! i) as [j|]; simpl; [|discriminate].
      intros [= <-] [= <-] [= <-]. specialize (Hf j).
      destruct (f j) as [[p lo] hi]. exact Hf.
Qed.

Example forecast_occupancy_bounded_full :
  forecast_ok (forecast_occupancy init (replicate 24 50%R) [0%Z] 3 0%Z).
Proof.
  apply (forecast_occupancy_bounded init (replicate 24 50%R) [0%Z] 3 0%Z).
  left. simpl. lia.
Qed.

(** C8. The flat forecast for fewer than 24 historical rates repeats the
    last rate without clipping it, while it clips the two bounds to
    [0, 100]: whenever that rate lies outside [0, 100] and the horizon is
    positive, the first point of the forecast is the rate itself with the
    bounds max(0, rate - 15) and min(100, rate + 15), which violates both
    lower <= predicted <= upper and 0 <= predicted <= 100. The branch for
    24 rates or more clips the prediction; this one does not. *)
Theorem forecast_occupancy_fallback_unclipped self (rates : list R)
  (ts : list datetime) (horizon_hours : Z) (now : datetime) :
  (length rates < 24)%nat ->
  (0 < horizon_hours)%Z ->
  ~ 0 <= default 50 (last rates) <= 100 ->
  let rate := default 50 (last rates) in
  let r := forecast_occupancy self rates ts horizon_hours now in
  predicted_occupancy r !! 0%nat = Some rate
  /\ confidence_lower r !! 0%nat = Some (Rmax 0 (rate - 15))
  /\ confidence_upper r !! 0%nat = Some (Rmin 100 (rate + 15))
  /\ ~ (0 <= rate <= 100)
  /\ ~ (Rmax 0 (rate - 15) <= rate <= Rmin 100 (rate + 15))
  /\ ~ forecast_ok r.
Proof.
  intros Hshort Hhor Hrate rate r. subst r. unfold forecast_occupancy.
  rewrite decide_True by exact Hshort. rewrite List_last_default.
  fold rate. simpl.
  assert (Hn : (0 < Z.to_nat horizon_hours)%nat) by lia.
  rewrite !lookup_replicate_2 by exact Hn.
  assert (Hbad : ~ (Rmax 0 (rate - 15) <= rate <= Rmin 100 (rate + 15))).
  { intros [Hlo Hhi]. apply Hrate. fold rate. split.
    - apply Rle_trans with (Rmax 0 (rate - 15)); [apply Rmax_l | exact Hlo].
    - apply Rle_trans with (Rmin 100 (rate + 15)); [exact Hhi | apply Rmin_l]. }
  split; [reflexivity|]. split; [reflexivity|]. split; [reflexivity|].
  split; [exact Hrate|]. split; [exact Hbad|].
  intros Hok.
  specialize (Hok 0%nat rate (Rmax 0 (rate - 15)) (Rmin 100 (rate + 15))).
  simpl in Hok. rewrite !lookup_replicate_2 in Hok by exact Hn.
  destruct (Hok eq_refl eq_refl eq_refl) as [_ Hin]. by apply Hrate.
Qed.

Lemma forecast_occupancy_fallback_unclipped_witness :
  let r := forecast_occupancy init [150] [] 1 0%Z in
  predicted_occupancy r = [150]
  /\ confidence_lower r = [135]
  /\ confidence_upper r = [100]
  /\ ~ (135 <= 150 <= 100) /\ ~ (0 <= 150 <= 100)
  /\ ~ forecast_ok r.
Proof.
  intros r.
  destruct (forecast_occupancy_fallback_unclipped init [150] [] 1 0%Z)
    as (_ & _ & _ & _ & _ & Hnot).
  - simpl. lia.
  - lia.
  - simpl. lra.
  - split; [reflexivity|]. split.
    { simpl. f_equal. rewrite Rmax_right by lra. lra. }
    split.
    { simpl. f_equal. rewrite Rmin_left by lra. reflexivity. }
    split; [lra|]. split; [lra|]. exact Hnot.
Defined.

End Forecast.

Section Anomalies.
Local Open Scope R_scope.

(** A loop that appends one item per index builds the image of the index
    list. *)
Lemma fold_left_append {A B} (f : A -> B) (l : list A) (init : list B) :
  fold_left (fun acc i => acc ++ [f i]) l init = init ++ map f l.
Proof.
  revert init. induction l as [|a l IH]; intros init; simpl.
  - by rewrite app_nil_r.
  - rewrite IH, <- app_assoc. reflexivity.
Qed.

Lemma detect_anomalies_map self values window_size :
  detect_anomalies self values window_size =
    map (detect_at self values window_size) (seq 0 (length values)).
Proof.
  unfold detect_anomalies, range. rewrite fold_left_append, Nat2Z.id.
  reflexivity.
Qed.

Lemma detect_anomalies_lookup self values window_size (i : nat) :
  (i < length values)%nat ->
  detect_anomalies self values window_size !! i =
    Some (detect_at self values window_size i).
Proof.
  intros Hi. rewrite detect_anomalies_map, list_lookup_fmap.
  rewrite lookup_seq_lt by done. reflexivity.
Qed.

Lemma detect_anomalies_length self values window_size :
  length (detect_anomalies self values window_size) = length values.
Proof. by rewrite detect_anomalies_map, length_map, length_seq. Qed.



Lemma baseline_is_baseline (x : list R) (window_size : Z) (i : nat) :
  (i < length x)%nat ->
  is_baseline x window_size i (baseline x window_size i).
Proof.
  intros Hi. unfold is_baseline, baseline, slice.
  set (lo := Z.to_nat (Z.max 0 (Z.of_nat i - window_size))).
  rewrite length_take, length_drop. split; [lia|].
  intros k Hk. rewrite lookup_take_lt by lia. by rewrite lookup_drop.
Qed.







End Anomalies.

Section ArrivalRate.
Local Open Scope R_scope.

Lemma sorted_perm (ts : list datetime) : sorted ts ≡ₚ ts.
Proof. apply merge_sort_Permutation. Qed.

Lemma sorted_strongly (ts : list datetime) : StronglySorted Z.le (sorted ts).
Proof. apply StronglySorted_merge_sort; apply _. Qed.

(** In an ascending list the head is a least item and the last item a
    greatest one. *)
Lemma strongly_sorted_ends (l : list datetime) :
  StronglySorted Z.le l ->
  forall t : datetime, t ∈ l -> (hd 0 l <= t <= List.last l 0)%Z.
Proof.
  induction 1 as [|a l Hs IH Hall]; intros t Hin;
    [by apply elem_of_nil in Hin|].
  rewrite Forall_forall in Hall.
  destruct l as [|b l]; [apply list_elem_of_singleton in Hin; simpl; lia|].
  change (List.last (a :: b :: l) 0%Z) with (List.last (b :: l) 0%Z). cbn [hd].
  assert (Hb : (a <= b)%Z) by (apply Hall; left).
  pose proof (IH b ltac:(left)) as IHb. cbn [hd] in IHb.
  apply elem_of_cons in Hin as [->|Hin]; [unfold datetime in *; lia|].
  specialize (IH t Hin). cbn [hd] in IH. unfold datetime in *. lia.
Qed.

Lemma hd_elem_of (l : list datetime) : l <> [] -> hd 0%Z l ∈ l.
Proof. destruct l; [done | left]. Qed.

Lemma last_elem_of (l : list datetime) : l <> [] -> List.last l 0%Z ∈ l.
Proof.
  intros Hl. rewrite List_last_default.
  destruct (last l) as [x|] eqn:E.
  - simpl. rewrite last_Some in E. destruct E as [l' ->]. set_solver.
  - apply last_None in E. done.
Qed.

(** The gaps telescope: they add up to the span of the list, in minutes. *)
Lemma inter_arrivals_sum (l : list datetime) :
  l <> [] ->
  Rsum (inter_arrivals_of l) = total_seconds (List.last l 0 - hd 0 l)%Z / 60.
Proof.
  induction l as [|a [|b l] IH]; intros Hne; [done| |].
  - simpl. unfold total_seconds. rewrite Z.sub_diag. lra.
  - change (inter_arrivals_of (a :: b :: l))
      with (total_seconds (b - a)%Z / 60 :: inter_arrivals_of (b :: l)).
    change (List.last (a :: b :: l) 0%Z) with (List.last (b :: l) 0%Z).
    cbn [Rsum fold_right hd]. fold (Rsum (inter_arrivals_of (b :: l))).
    rewrite IH by done. cbn [hd]. unfold total_seconds.
    rewrite !minus_IZR. lra.
Qed.

Lemma inter_arrivals_length (l : list datetime) :
  length (inter_arrivals_of l) = (length l - 1)%nat.
Proof.
  induction l as [|a [|b l] IH]; [done..|].
  change (inter_arrivals_of (a :: b :: l))
    with (total_seconds (b - a)%Z / 60 :: inter_arrivals_of (b :: l)).
  cbn [length] in *. rewrite IH. lia.
Qed.

(** With at least two timestamps the guard of the code fires exactly when
    the earliest and the latest timestamp coincide. *)
Lemma zero_guard_iff (s : list datetime) :
  (2 <= length s)%nat ->
  (inter_arrivals_of s = [] \/ np_mean (inter_arrivals_of s) = 0)
  <-> List.last s 0%Z = hd 0%Z s.
Proof.
  intros Hlen.
  assert (Hne : s <> []) by (intros ->; simpl in Hlen; lia).
  assert (Hn : 0 < INR (length (inter_arrivals_of s))).
  { rewrite inter_arrivals_length. apply lt_0_INR. lia. }
  unfold np_mean. rewrite inter_arrivals_sum by done. unfold total_seconds.
  split.
  - intros [Hnil|Hmean].
    + rewrite Hnil in Hn. simpl in Hn. lra.
    + assert (H0 : IZR (List.last s 0 - hd 0 s)%Z = 0).
      { apply Rmult_integral in Hmean as [Hmean|Hinv].
        - lra.
        - pose proof (Rinv_0_lt_compat _ Hn). lra. }
      apply eq_IZR in H0. lia.
  - intros ->. right. rewrite Z.sub_diag. lra.
Qed.

Lemma zero_rate_lookup :
  zero_rate !! "lambda" = Some 0
  /\ zero_rate !! "expected_per_hour" = Some 0
  /\ zero_rate !! "std_dev" = Some 0.
Proof. unfold zero_rate. repeat split; by simplify_map_eq. Qed.

(** C6 (as the code has it). Fewer than 2 timestamps, or timestamps that
    are all equal, give the all-zero result. For at least 2 timestamps that
    are not all equal, with first and last the earliest and the latest of
    them, T = max((last - first) in hours, 1/60) and rate = count / T, the
    result reports lambda = round(rate, 4), expected_per_hour =
    round(rate, 2) and std_dev = round(sqrt(rate), 4). *)
Theorem estimate_arrival_rate_spec self (ts : list datetime) (interval_minutes : Z) :
  ((length ts < 2)%nat \/ (forall a b, a ∈ ts -> b ∈ ts -> a = b) ->
     estimate_arrival_rate self ts interval_minutes = zero_rate)
  /\
  ((2 <= length ts)%nat -> (exists a b, a ∈ ts /\ b ∈ ts /\ a <> b) ->
     exists first last : datetime,
       first ∈ ts /\ last ∈ ts
       /\ (forall t, t ∈ ts -> (first <= t <= last)%Z)
       /\ let T := Rmax (total_seconds (last - first)%Z / 3600) (1 / 60) in
          let rate := INR (length ts) / T in
          let res := estimate_arrival_rate self ts interval_minutes in
          res !! "lambda" = Some (round rate 4)
          /\ res !! "expected_per_hour" = Some (round rate 2)
          /\ res !! "std_dev" = Some (round (sqrt rate) 4)).
Proof.
  pose proof (sorted_perm ts) as Hperm.
  pose proof (sorted_strongly ts) as Hsorted.
  assert (Hends : forall t, t ∈ ts ->
            (hd 0 (sorted ts) <= t <= List.last (sorted ts) 0)%Z).
  { intros t Ht. apply strongly_sorted_ends; [done|]. by rewrite Hperm. }
  assert (Hlen : length (sorted ts) = length ts) by (by rewrite Hperm).
  assert (Hmem : forall t, t ∈ sorted ts -> t ∈ ts)
    by (intros t Ht; by rewrite <- Hperm).
  assert (Hne : (1 <= length ts)%nat -> sorted ts <> []).
  { intros H1 E. rewrite E in Hlen. simpl in Hlen. lia. }
  unfold estimate_arrival_rate. split.
  - intros [Hshort|Hsame]; [by rewrite decide_True|].
    case_decide; [done|]. rewrite decide_True; [done|].
    apply zero_guard_iff; [lia|].
    apply Hsame; apply Hmem; [apply last_elem_of | apply hd_elem_of];
      apply Hne; lia.
  - intros Hge (a & b & Ha & Hb & Hab).
    exists (hd 0%Z (sorted ts)), (List.last (sorted ts) 0%Z).
    split; [apply Hmem, hd_elem_of, Hne; lia|].
    split; [apply Hmem, last_elem_of, Hne; lia|].
    split; [exact Hends|].
    rewrite decide_False by lia. rewrite decide_False.
    + cbv zeta. repeat split; by simplify_map_eq.
    + rewrite zero_guard_iff by lia. intros Heq.
      pose proof (Hends a Ha). pose proof (Hends b Hb).
      unfold datetime in *. lia.
Qed.

Lemma estimate_arrival_rate_spec_witness :
  exists first last : datetime,
    first ∈ two_arrivals /\ last ∈ two_arrivals
    /\ (forall t, t ∈ two_arrivals -> (first <= t <= last)%Z)
    /\ let T := Rmax (total_seconds (last - first)%Z / 3600) (1 / 60) in
       let rate := INR (length two_arrivals) / T in
       let res := estimate_arrival_rate init two_arrivals 60 in
       res !! "lambda" = Some (round rate 4)
       /\ res !! "expected_per_hour" = Some (round rate 2)
       /\ res !! "std_dev" = Some (round (sqrt rate) 4).
Proof.
  apply (proj2 (estimate_arrival_rate_spec init two_arrivals 60)).
  - simpl. lia.
  - exists 3600000000%Z, 0%Z. unfold two_arrivals.
    split; [set_solver|]. split; [set_solver|]. lia.
Defined.

(** C6 fails as stated: two arrivals at the same instant give lambda = 0,
    not count / T = 2 / (1/60) = 120. *)
Lemma estimate_arrival_rate_equal_timestamps :
  estimate_arrival_rate init [0%Z; 0%Z] 60 !! "lambda" = Some 0
  /\ INR (length [0%Z; 0%Z]) / Rmax (total_seconds (0 - 0)%Z / 3600) (1 / 60) = 120
  /\ round 120 4 <> 0.
Proof.
  split; [|split].
  - unfold estimate_arrival_rate. rewrite decide_False by (simpl; lia).
    rewrite decide_True; [apply zero_rate_lookup|].
    apply zero_guard_iff; [simpl; lia | reflexivity].
  - unfold total_seconds. rewrite Z.sub_diag.
    change (length [0%Z; 0%Z]) with 2%nat.
    replace (INR 2) with 2 by (simpl; lra).
    rewrite Rmax_right by lra. lra.
  - rewrite (round_IZR 120 4). lra.
Qed.

End ArrivalRate.

(** ** Broadcast hub *)

Section Broadcast.

Lemma received_send_same conn msg net :
  conn ∈ healthy net ->
  received (send_json conn msg net).2 conn = received net conn ++ [msg].
Proof.
  intros Hh. unfold send_json. rewrite decide_True by done.
  unfold received at 1. simpl. by rewrite lookup_insert_eq.
Qed.

Lemma received_send_other conn msg net c :
  c <> conn -> received (send_json conn msg net).2 c = received net c.
Proof.
  intros Hne. unfold send_json. case_decide; [|done].
  unfold received at 1. simpl. by rewrite lookup_insert_ne.
Qed.

Lemma healthy_send conn msg net :
  healthy (send_json conn msg net).2 = healthy net.
Proof. unfold send_json. by case_decide. Qed.

Lemma send_unhealthy conn msg net :
  conn ∉ healthy net -> send_json conn msg net = (Raise SendError, net).
Proof. intros Hh. unfold send_json. by rewrite decide_False. Qed.

Lemma quiet_undisturbed self : undisturbed quiet self.
Proof. intros c _. reflexivity. Qed.

(** The loop when no other task touches the live set: it runs to its end,
    the broken connections are collected in [dead], the healthy ones get
    the message once, nobody else's inbox moves. *)
Lemma broadcast_loop_undisturbed env msg self (order : list WebSocket) :
  NoDup order ->
  (forall c, c ∈ order -> apply_interference (env c) self = self) ->
  forall dead net,
  exists dead' net',
    broadcast_loop env msg (size (active_connections self)) order self dead net
      = (Ok tt, self, dead', net')
    /\ (forall c, c ∈ dead' <-> c ∈ dead \/ (c ∈ order /\ c ∉ healthy net))
    /\ healthy net' = healthy net
    /\ (forall c, c ∈ order -> c ∈ healthy net ->
          received net' c = received net c ++ [msg])
    /\ (forall c, ~ (c ∈ order /\ c ∈ healthy net) ->
          received net' c = received net c).
Proof.
  induction 1 as [|a l Ha Hnd IH]; intros Hq dead net; cbn [broadcast_loop];
    rewrite decide_True by done.
  - exists dead, net. split; [done|]. split; [intros c; set_solver|].
    split; [done|]. split; [intros c Hc; by apply elem_of_nil in Hc | done].
  - rewrite (Hq a) by left.
    assert (Hq' : forall c, c ∈ l -> apply_interference (env c) self = self)
      by (intros c Hc; apply Hq; by right).
    specialize (IH Hq').
    destruct (decide (a ∈ healthy net)) as [Hok|Hbad].
    + pose proof (received_send_same a msg net Hok) as Hsame.
      pose proof (fun c => received_send_other a msg net c) as Hother.
      pose proof (healthy_send a msg net) as Hh.
      assert (Hsend : (send_json a msg net).1 = Ok tt)
        by (unfold send_json; by rewrite decide_True).
      destruct (send_json a msg net) as [r net1]. simpl in *. subst r.
      destruct (IH dead net1) as (dead' & net' & Hrun & Hdead & Hh' & Hrecv & Hkeep).
      exists dead', net'. split; [exact Hrun|].
      split; [intros c; rewrite Hdead, Hh; set_solver|].
      split; [by rewrite Hh', Hh|]. split.
      * intros c Hc Hc'. apply elem_of_cons in Hc as [Heq|Hc].
        -- subst c. rewrite Hkeep by (intros [? _]; done). exact Hsame.
        -- rewrite Hrecv by (by rewrite ?Hh). rewrite Hother; [done|].
           intros Heq. subst c. done.
      * intros c Hc. rewrite Hkeep.
        -- apply Hother. intros Heq. subst c.
           destruct (decide (a ∈ healthy net)); [|done]. apply Hc. set_solver.
        -- rewrite Hh. intros [? ?]. apply Hc. set_solver.
    + rewrite send_unhealthy by done.
      destruct (IH (dead ∪ {[a]}) net) as (dead' & net' & Hrun & Hdead & Hh' & Hrecv & Hkeep).
      exists dead', net'. split; [exact Hrun|].
      split; [intros c; rewrite Hdead; set_solver|].
      split; [done|]. split.
      * intros c Hc Hc'. apply elem_of_cons in Hc as [->|Hc]; [done|].
        by apply Hrecv.
      * intros c Hc. apply Hkeep. intros [? ?]. apply Hc. set_solver.
Qed.

(** As long as no other task changes the live set during its sends,
    [broadcast] returns normally: a subscriber is live afterwards exactly
    when it was live before and its send succeeded, every such subscriber
    has received the message once, after what it had, and no other inbox
    changes. *)
Lemma broadcast_undisturbed env (self : ConnectionManager) (msg : message)
  (net : Net) :
  undisturbed env self ->
  exists self' net',
    broadcast env self msg net = (Ok tt, self', net')
    /\ active_connections self'
         = filter (fun c => c ∈ healthy net) (active_connections self)
    /\ healthy net' = healthy net
    /\ (forall c, c ∈ active_connections self -> c ∈ healthy net ->
          received net' c = received net c ++ [msg])
    /\ (forall c, ~ (c ∈ active_connections self /\ c ∈ healthy net) ->
          received net' c = received net c).
Proof.
  intros Hq. unfold broadcast.
  destruct (broadcast_loop_undisturbed env msg self
              (elements (active_connections self)) (NoDup_elements _)
              ltac:(intros c Hc; apply Hq; by apply elem_of_elements) ∅ net)
    as (dead' & net' & Hrun & Hdead & Hh & Hrecv & Hkeep).
  rewrite Hrun. eexists _, _. split; [reflexivity|]. simpl.
  split; [|split; [exact Hh|split]].
  - apply set_eq. intros c.
    rewrite elem_of_difference, Hdead, elem_of_elements, elem_of_filter.
    destruct (decide (c ∈ healthy net)); set_solver.
  - intros c Hc. apply Hrecv. by rewrite elem_of_elements.
  - intros c Hc. apply Hkeep. by rewrite elem_of_elements.
Qed.

(** One action of another task that changes the size of the live set
    during the first send ends the broadcast: the iterator raises, the
    exception leaves [broadcast], nobody after the first connection is
    sent to, and nothing is pruned. *)
Lemma broadcast_interrupted env (self : ConnectionManager) (msg : message)
  (net : Net) (conn : WebSocket) (rest : list WebSocket) :
  elements (active_connections self) = conn :: rest ->
  size (active_connections (apply_interference (env conn) self))
    <> size (active_connections self) ->
  broadcast env self msg net =
    (Raise (RuntimeError "Set changed size during iteration"),
     apply_interference (env conn) self,
     (send_json conn msg net).2).
Proof.
  intros Hel Hsize. unfold broadcast. rewrite Hel. cbn [broadcast_loop].
  rewrite decide_True by done.
  destruct (send_json conn msg net) as [[u|e] net1]; simpl;
    destruct rest; cbn [broadcast_loop]; by rewrite decide_False.
Qed.

(** C9. [broadcast] does not isolate its caller from the other tasks.
    On any hub with at least one subscriber, a new client that connects
    while the first send is awaited makes the call raise RuntimeError
    ("Set changed size during iteration"): the exception reaches the
    caller, only the one subscriber the iterator yielded first was sent to,
    so every other subscriber, reachable or not, has received nothing, and
    the pruning is skipped, so every subscriber, failing ones included, is
    still in the live set. *)
Theorem broadcast_raises_on_concurrent_connect (self : ConnectionManager)
  (msg : message) (net : Net) (newcomer : WebSocket) :
  active_connections self <> ∅ ->
  newcomer ∉ active_connections self ->
  exists conn,
    conn ∈ active_connections self
    /\ broadcast (fun _ => Some (Connects newcomer)) self msg net
       = (Raise (RuntimeError "Set changed size during iteration"),
          connect self newcomer, (send_json conn msg net).2)
    /\ (forall c, c <> conn ->
          received (broadcast (fun _ => Some (Connects newcomer)) self msg net).2 c
          = received net c)
    /\ (forall c, c ∈ active_connections self ->
          c ∈ active_connections
                (broadcast (fun _ => Some (Connects newcomer)) self msg net).1.2).
Proof.
  intros Hne Hnew.
  destruct (elements (active_connections self)) as [|conn rest] eqn:Hel.
  { apply elements_empty_inv in Hel. destruct Hne. by apply leibniz_equiv. }
  assert (Hconn : conn ∈ active_connections self)
    by (apply elem_of_elements; rewrite Hel; left).
  assert (Hrun := broadcast_interrupted (fun _ => Some (Connects newcomer))
                    self msg net conn rest Hel).
  simpl in Hrun. rewrite size_union, size_singleton in Hrun by set_solver.
  specialize (Hrun ltac:(lia)).
  exists conn. split; [exact Hconn|]. split; [exact Hrun|]. rewrite Hrun.
  split.
  - intros c Hc. simpl. by apply received_send_other.
  - intros c Hc. simpl. set_solver.
Qed.

Lemma broadcast_raises_on_concurrent_connect_witness :
  exists conn,
    conn ∈ active_connections hub2
    /\ broadcast (fun _ => Some (Connects 3%nat)) hub2 "zone_update" net2
       = (Raise (RuntimeError "Set changed size during iteration"),
          connect hub2 3%nat, (send_json conn "zone_update" net2).2)
    /\ (forall c, c <> conn ->
          received (broadcast (fun _ => Some (Connects 3%nat)) hub2
                      "zone_update" net2).2 c
          = received net2 c)
    /\ (forall c, c ∈ active_connections hub2 ->
          c ∈ active_connections
                (broadcast (fun _ => Some (Connects 3%nat)) hub2
                   "zone_update" net2).1.2).
Proof.
  apply (broadcast_raises_on_concurrent_connect hub2 "zone_update" net2 3%nat).
  - unfold hub2. simpl. set_solver.
  - unfold hub2. simpl. set_solver.
Defined.

End Broadcast.

(** ** Worked inputs *)

Section Examples.
Local Open Scope R_scope.

Example compute_ema_half :
  compute_ema init [10; 20; 30] (Some (1 / 2)) = [10; 15; 45 / 2].
Proof.
  rewrite compute_ema_recurrence by lra. simpl. repeat f_equal; lra.
Qed.

Example compute_ema_default :
  compute_ema init [10; 20] None = [10; 13].
Proof. unfold compute_ema, alpha_or. simpl. repeat f_equal; lra. Qed.

Lemma np_mean_pair (a : R) : np_mean [a; a] = a.
Proof. unfold np_mean, Rsum. simpl. lra. Qed.

Lemma np_std_pair (a : R) : np_std [a; a] = 0.
Proof.
  unfold np_std. rewrite np_mean_pair. cbn [map].
  replace (Rabs (a - a) ^ 2) with 0.
  - rewrite np_mean_pair. apply sqrt_0.
  - replace (a - a) with 0 by lra. rewrite Rabs_R0. lra.
Qed.

(** The spike after two equal readings: the baseline has no spread, the
    deviation floor 1e-6 applies and the point is flagged with the highest
    severity; the expected value is the baseline mean. *)
Example detect_spike_flagged :
  exists r,
    detect_anomalies init spike 24 !! 2%nat = Some r
    /\ is_anomaly r = true /\ severity r = "high"
    /\ expected_value r = 50 /\ actual_value r = 95.
Proof.
  eexists. split; [apply detect_anomalies_lookup; simpl; lia|].
  unfold detect_at, spike. cbn [slice Z.to_nat Z.max Z.of_nat Nat.add Nat.sub
    skipn firstn length nth removelast hd]. simpl Z.to_nat. simpl slice.
  rewrite decide_False by (simpl; lia). rewrite !decide_True by (simpl; lia).
  simpl removelast. rewrite np_mean_pair, np_std_pair.
  rewrite Rmax_right by lra.
  assert (Hz : Rabs ((95 - 50) / (1 / 1000000)) = 45000000).
  { rewrite Rabs_right; lra. }
  simpl. rewrite Hz. rewrite bool_decide_eq_true_2 by lra.
  rewrite decide_True by lra.
  repeat split. apply (round_IZR 50 2).
Qed.

(** A short history: the first two points have no usable baseline. *)
Example detect_short_history :
  detect_anomalies init spike 24 !! 1%nat =
    Some {| is_anomaly := false; z_score := 0; expected_value := 50;
            actual_value := 50; severity := "low" |}.
Proof.
  rewrite detect_anomalies_lookup by (simpl; lia).
  unfold detect_at, spike. simpl slice.
  rewrite decide_True by (simpl; lia). reflexivity.
Qed.

Lemma sorted_two_arrivals : sorted two_arrivals = [0; 3600000000]%Z.
Proof. reflexivity. Qed.

(** Two arrivals one hour apart: T = 1 hour and the rate is 2 per hour. *)
Example estimate_arrival_rate_two :
  estimate_arrival_rate init two_arrivals 60 !! "lambda" = Some 2
  /\ estimate_arrival_rate init two_arrivals 60 !! "std_dev" = Some (round (sqrt 2) 4).
Proof.
  unfold estimate_arrival_rate.
  rewrite decide_False by (simpl; lia).
  rewrite decide_False.
  - rewrite sorted_two_arrivals. cbn [List.last hd length two_arrivals].
    assert (HT : Rmax (total_seconds (3600000000 - 0)%Z / 3600) (1 / 60) = 1).
    { unfold total_seconds. rewrite Z.sub_0_r, Rmax_left; lra. }
    rewrite HT. replace (INR 2 / 1) with 2 by (simpl; lra).
    split; simplify_map_eq; [|reflexivity].
    f_equal. apply (round_IZR 2 4).
  - rewrite zero_guard_iff by (rewrite sorted_two_arrivals; simpl; lia).
    rewrite sorted_two_arrivals. simpl. discriminate.
Qed.

(** A zone pushed over capacity from outside still reports no free spot. *)
Example available_spots_over_capacity :
  available_spots {| zone_code := "C9"; total_spots := 3; occupied_spots := 5 |} = 0%Z.
Proof. reflexivity. Qed.

(** [send_personal] iterates over nothing: it returns normally and drops
    the connection exactly when the send failed. *)
Lemma send_personal_isolates (self : ConnectionManager) (c : WebSocket)
  (msg : message) (net : Net) :
  exists self' net',
    send_personal self c msg net = (Ok tt, self', net')
    /\ active_connections self' =
         (if decide (c ∈ healthy net) then active_connections self
          else active_connections self ∖ {[c]}).
Proof.
  unfold send_personal, send_json. case_decide; eexists _, _; split;
    reflexivity.
Qed.

End Examples.

(** * Further properties *)

(** ** Event ingestion beyond the bounds invariant *)

Section Ingestion.

Lemma zones_after_lookup_ne ev z zs id :
  id <> zone_id ev -> zones_after ev z zs !! id = zs !! id.
Proof.
  intros Hne. unfold zones_after.
  repeat case_decide; rewrite ?lookup_insert_ne by done; reflexivity.
Qed.

Lemma zones_after_lookup_eq ev z zs :
  zs !! zone_id ev = Some z ->
  exists z', zones_after ev z zs !! zone_id ev = Some z'
             /\ total_spots z' = total_spots z
             /\ zone_code z' = zone_code z
             /\ occupied_spots z' =
                  (if decide (event_type ev = "entry")
                   then Z.min (occupied_spots z + 1) (total_spots z)
                   else if decide (event_type ev = "exit")
                   then Z.max (occupied_spots z - 1) 0
                   else occupied_spots z).
Proof.
  intros Hz. unfold zones_after.
  repeat case_decide; rewrite ?lookup_insert_eq; eauto.
Qed.

Lemma zones_after_dom ev z (zs : gmap Z ParkingZone) :
  zs !! zone_id ev = Some z -> dom (zones_after ev z zs) = dom zs.
Proof.
  intros Hz. assert (zone_id ev ∈ dom zs) by (apply elem_of_dom; eauto).
  unfold zones_after. repeat case_decide; rewrite ?dom_insert_L; set_solver.
Qed.

(** X2. An accepted event touches one row only: every other zone is as it was,
    no zone appears or disappears, the capacity and the code of the zone
    itself are kept, and exactly the event is appended to the event rows. *)
Theorem record_event_frame db ev z :
  zones db !! zone_id ev = Some z ->
  (forall id, id <> zone_id ev -> zones (step db ev) !! id = zones db !! id)
  /\ dom (zones (step db ev)) = dom (zones db)
  /\ (exists z', zones (step db ev) !! zone_id ev = Some z'
                 /\ total_spots z' = total_spots z
                 /\ zone_code z' = zone_code z)
  /\ events (step db ev) = events db ++ [ev].
Proof.
  intros Hz. rewrite (step_known _ _ _ Hz). simpl.
  split; [intros id Hne; by apply zones_after_lookup_ne|].
  split; [by apply zones_after_dom|].
  split; [|reflexivity].
  destruct (zones_after_lookup_eq ev z (zones db) Hz) as (z' & ? & ? & ? & _).
  eauto.
Qed.

Lemma record_event_frame_witness :
  (forall id, id <> 1 -> zones (step db1 (exit_at 1)) !! id = zones db1 !! id)
  /\ dom (zones (step db1 (exit_at 1))) = dom (zones db1)
  /\ (exists z', zones (step db1 (exit_at 1)) !! 1 = Some z'
                 /\ total_spots z' = 2 /\ zone_code z' = "A1")
  /\ events (step db1 (exit_at 1)) = [exit_at 1].
Proof.
  apply (record_event_frame db1 (exit_at 1) zoneA1). reflexivity.
Defined.

(** What one accepted event does to the occupancy of its zone. *)
Lemma step_occupied db ev z :
  zones db !! zone_id ev = Some z ->
  occupied_spots <$> zones (step db ev) !! zone_id ev =
    Some (if decide (event_type ev = "entry")
          then Z.min (occupied_spots z + 1) (total_spots z)
          else if decide (event_type ev = "exit")
          then Z.max (occupied_spots z - 1) 0
          else occupied_spots z).
Proof.
  intros Hz. rewrite (step_known _ _ _ Hz). simpl.
  destruct (zones_after_lookup_eq ev z (zones db) Hz)
    as (z' & Hz' & _ & _ & Hocc).
  rewrite Hz'. simpl. by rewrite Hocc.
Qed.

(** X3. In a zone that is within its bounds and not full, an entry followed by
    an exit gives back the zone table as it was; in one that is not empty,
    so does an exit followed by an entry. Both events are recorded. *)
Theorem entry_exit_round_trip db zid z :
  zones db !! zid = Some z -> zone_ok z ->
  (occupied_spots z < total_spots z ->
     zones (run db [entry_at zid; exit_at zid]) = zones db)
  /\ (0 < occupied_spots z ->
     zones (run db [exit_at zid; entry_at zid]) = zones db)
  /\ events (run db [entry_at zid; exit_at zid])
       = events db ++ [entry_at zid; exit_at zid].
Proof.
  intros Hz Hok. unfold zone_ok in Hok.
  assert (Hback : forall v w, w = occupied_spots z ->
            <[zid := set_occupied_spots (set_occupied_spots z v) w]>
              (<[zid := set_occupied_spots z v]> (zones db)) = zones db).
  { intros v w ->. rewrite insert_insert_eq.
    replace (set_occupied_spots (set_occupied_spots z v) (occupied_spots z))
      with z by (by destruct z).
    by apply insert_id. }
  unfold run. simpl.
  split; [|split].
  - intros Hroom.
    rewrite (step_known db (entry_at zid) z Hz).
    erewrite step_known; [|simpl; unfold zones_after; simpl; apply lookup_insert_eq].
    simpl. unfold zones_after. simpl. apply Hback. simpl. lia.
  - intros Hpos.
    rewrite (step_known db (exit_at zid) z Hz).
    erewrite step_known; [|simpl; unfold zones_after; simpl; apply lookup_insert_eq].
    simpl. unfold zones_after. simpl. apply Hback. simpl. lia.
  - rewrite (step_known db (entry_at zid) z Hz).
    erewrite step_known; [|simpl; unfold zones_after; simpl; apply lookup_insert_eq].
    simpl. by rewrite <- app_assoc.
Qed.

Lemma entry_exit_round_trip_witness :
  (occupied_spots zoneB0 < total_spots zoneB0 ->
     zones (run db1 [entry_at 2; exit_at 2]) = zones db1)
  /\ (0 < occupied_spots zoneB0 ->
     zones (run db1 [exit_at 2; entry_at 2]) = zones db1)
  /\ events (run db1 [entry_at 2; exit_at 2])
       = events db1 ++ [entry_at 2; exit_at 2].
Proof.
  apply (entry_exit_round_trip db1 2 zoneB0); [reflexivity|].
  unfold zone_ok. simpl. lia.
Defined.

(** X4. The service itself does not check the kind of an event: one that is
    neither "entry" nor "exit" is recorded without an error and leaves the
    zone table untouched. For a zone within its bounds no event moves the
    occupancy by more than one. *)
Theorem record_event_small_steps db ev z :
  zones db !! zone_id ev = Some z ->
  (event_type ev <> "entry" -> event_type ev <> "exit" ->
     record_event ev db =
       (Ok ev, {| zones := zones db; events := events db ++ [ev] |}))
  /\ (zone_ok z ->
      exists z', zones (step db ev) !! zone_id ev = Some z'
                 /\ Z.abs (occupied_spots z' - occupied_spots z) <= 1).
Proof.
  intros Hz. split.
  - intros Hne1 Hne2. rewrite (record_event_known _ _ _ Hz).
    unfold zones_after. by rewrite !decide_False.
  - intros Hok. unfold zone_ok in Hok. rewrite (step_known _ _ _ Hz). simpl.
    destruct (zones_after_lookup_eq ev z (zones db) Hz)
      as (z' & Hz' & _ & _ & Hocc).
    exists z'. split; [exact Hz'|]. rewrite Hocc. repeat case_decide; lia.
Qed.

Lemma record_event_small_steps_witness :
  (event_type maintenance_at_1 <> "entry" -> event_type maintenance_at_1 <> "exit" ->
     record_event maintenance_at_1 db1 =
       (Ok maintenance_at_1,
        {| zones := zones db1; events := events db1 ++ [maintenance_at_1] |}))
  /\ (zone_ok zoneA1 ->
      exists z', zones (step db1 maintenance_at_1) !! 1 = Some z'
                 /\ Z.abs (occupied_spots z' - occupied_spots zoneA1) <= 1).
Proof.
  apply (record_event_small_steps db1 maintenance_at_1 zoneA1). reflexivity.
Defined.

(** X5. Whatever state a zone is in (also over capacity or negative, which a
    capacity change from outside can cause), an entry leaves its occupancy
    at most at the capacity and an exit leaves it at least at zero. *)
Theorem record_event_restores_bound db ev z :
  zones db !! zone_id ev = Some z ->
  exists z', zones (step db ev) !! zone_id ev = Some z'
    /\ (event_type ev = "entry" -> occupied_spots z' <= total_spots z')
    /\ (event_type ev = "exit" -> 0 <= occupied_spots z').
Proof.
  intros Hz. rewrite (step_known _ _ _ Hz). simpl.
  destruct (zones_after_lookup_eq ev z (zones db) Hz)
    as (z' & Hz' & Htot & _ & Hocc).
  exists z'. split; [exact Hz'|]. rewrite Hocc, Htot.
  split; intros Hty.
  - rewrite decide_True by done. lia.
  - rewrite decide_False by (rewrite Hty; discriminate).
    rewrite decide_True by done. lia.
Qed.

Lemma record_event_restores_bound_witness :
  exists z', zones (step db_over (entry_at 3)) !! 3 = Some z'
    /\ (event_type (entry_at 3) = "entry" -> occupied_spots z' <= total_spots z')
    /\ (event_type (entry_at 3) = "exit" -> 0 <= occupied_spots z').
Proof.
  apply (record_event_restores_bound db_over (entry_at 3) zone_over).
  reflexivity.
Defined.

Lemma step_dom db ev : dom (zones (step db ev)) = dom (zones db).
Proof.
  destruct (zones db !! zone_id ev) as [z|] eqn:Hz.
  - rewrite (step_known _ _ _ Hz). simpl. by apply zones_after_dom.
  - by rewrite (step_unknown _ _ Hz).
Qed.

Lemma step_events db ev :
  events (step db ev) =
    events db ++ (if bool_decide (zone_id ev ∈ dom (zones db)) then [ev] else []).
Proof.
  destruct (zones db !! zone_id ev) as [z|] eqn:Hz.
  - rewrite (step_known _ _ _ Hz). simpl.
    rewrite bool_decide_eq_true_2; [done|]. apply elem_of_dom. eauto.
  - rewrite (step_unknown _ _ Hz).
    rewrite bool_decide_eq_false_2; [by rewrite app_nil_r|].
    by apply not_elem_of_dom.
Qed.

(** X6. The event rows are an exact log of the accepted requests: after any
    sequence of requests they are the old rows followed by the requests
    that named an existing zone, in order; rejected requests leave no row,
    and the set of zones never changes. *)
Theorem run_event_log db (evs : list ParkingEventCreate) :
  events (run db evs) =
    events db ++ filter (fun ev => zone_id ev ∈ dom (zones db)) evs
  /\ dom (zones (run db evs)) = dom (zones db).
Proof.
  revert db. induction evs as [|ev evs IH]; intros db.
  - simpl. by rewrite app_nil_r.
  - unfold run in *. simpl. destruct (IH (step db ev)) as [IHe IHd].
    rewrite IHe, IHd, !step_dom, step_events. split; [|reflexivity].
    rewrite filter_cons. case_bool_decide.
    + rewrite decide_True by done. by rewrite <- app_assoc.
    + rewrite decide_False by done. by rewrite app_nil_r.
Qed.

End Ingestion.

(** ** Reporting *)

Section Reports.
Local Open Scope R_scope.

Lemma percent_bounds (a b : R) :
  0 <= a <= b -> 0 < b -> 0 <= a / b * 100 <= 100.
Proof.
  intros Ha Hb. pose proof (Rinv_0_lt_compat _ Hb) as Hi.
  assert (Hone : b * / b = 1) by (apply Rinv_r; lra).
  unfold Rdiv. split; nra.
Qed.

Lemma round_percent_bounds (a b : R) :
  0 <= a <= b -> 0 < b -> 0 <= round (a / b * 100) 2 <= 100.
Proof.
  intros Ha Hb. destruct (percent_bounds a b Ha Hb) as [Hlo Hhi].
  split.
  - apply Rle_trans with (round 0 2); [|by apply round_mono].
    rewrite (round_IZR 0 2). lra.
  - apply Rle_trans with (round 100 2); [by apply round_mono|].
    rewrite (round_IZR 100 2). lra.
Qed.

(** X1. For a zone within its bounds the occupancy rate is a percentage, 0 for
    an empty zone (also one without any spot, where nothing is divided) and
    100 for a full zone that has spots. *)
Theorem occupancy_rate_bounds (z : ParkingZone) :
  zone_ok z ->
  0 <= occupancy_rate z <= 100
  /\ (occupied_spots z = 0%Z -> occupancy_rate z = 0)
  /\ (occupied_spots z = total_spots z -> total_spots z <> 0%Z ->
        occupancy_rate z = 100).
Proof.
  intros [Hlo Hhi]. unfold occupancy_rate.
  destruct (decide (total_spots z = 0%Z)) as [Hz|Hnz].
  - split; [lra|]. split; [done|]. intros _ Hne. done.
  - assert (Hpos : 0 < IZR (total_spots z)) by (apply IZR_lt; lia).
    split; [|split].
    + apply round_percent_bounds; [|done].
      split; [apply (IZR_le 0) | apply IZR_le]; done.
    + intros ->. replace (0 / IZR (total_spots z) * 100) with 0
        by (unfold Rdiv; lra).
      apply (round_IZR 0 2).
    + intros -> _. replace (IZR (total_spots z) / IZR (total_spots z) * 100)
        with 100 by (field; lra).
      apply (round_IZR 100 2).
Qed.

Lemma occupancy_rate_bounds_witness :
  0 <= occupancy_rate zoneA1 <= 100
  /\ (occupied_spots zoneA1 = 0%Z -> occupancy_rate zoneA1 = 0)
  /\ (occupied_spots zoneA1 = total_spots zoneA1 -> total_spots zoneA1 <> 0%Z ->
        occupancy_rate zoneA1 = 100).
Proof.
  apply (occupancy_rate_bounds zoneA1). unfold zone_ok. simpl. lia.
Defined.

Lemma sums_of_ok_zones (zs : list ParkingZone) :
  Forall zone_ok zs ->
  (0 <= sum_int (map occupied_spots zs) <= sum_int (map total_spots zs))%Z
  /\ (sum_int (map total_spots zs) - sum_int (map occupied_spots zs)
      = sum_int (map available_spots zs))%Z.
Proof.
  induction 1 as [|z zs [Hlo Hhi] _ IH]; simpl; [lia|].
  unfold available_spots at 1. lia.
Qed.

(** X7. When every listed zone is within its bounds, the dashboard agrees with
    the per-zone availability it carries: total_available is the sum of the
    available spots of the listed zones and is not negative, and the
    overall rate is a percentage (0 when no spot is listed). *)
Theorem dashboard_summary_consistent (zs : list ParkingZone)
  (active_cameras events_today : Z) :
  Forall zone_ok zs ->
  let s := get_dashboard_summary zs active_cameras events_today in
  Schemas.total_available s
    = sum_int (map Schemas.available_spots (Schemas.zones s))
  /\ (0 <= Schemas.total_available s)%Z
  /\ 0 <= Schemas.overall_occupancy_rate s <= 100
  /\ length (Schemas.zones s) = length zs.
Proof.
  intros Hok. destruct (sums_of_ok_zones zs Hok) as [[Hlo Hhi] Hsum]. simpl.
  unfold get_availability. rewrite map_map, length_map. simpl.
  split; [exact Hsum|]. split; [lia|]. split; [|reflexivity].
  case_decide as Hpos; [|lra].
  apply round_percent_bounds.
  - split; [apply (IZR_le 0) | apply IZR_le]; done.
  - apply (IZR_lt 0). lia.
Qed.

Lemma dashboard_summary_consistent_witness :
  let s := get_dashboard_summary [zoneA1; zoneB0] 3 12 in
  Schemas.total_available s
    = sum_int (map Schemas.available_spots (Schemas.zones s))
  /\ (0 <= Schemas.total_available s)%Z
  /\ 0 <= Schemas.overall_occupancy_rate s <= 100
  /\ length (Schemas.zones s) = 2%nat.
Proof.
  apply (dashboard_summary_consistent [zoneA1; zoneB0] 3 12).
  repeat constructor; simpl; lia.
Defined.

End Reports.

(** ** Smoothing and anomaly detection as streaming computations *)

Section Streaming.
Local Open Scope R_scope.

Lemma ema_spec_length a prev rest : length (ema_spec a prev rest) = length rest.
Proof.
  revert prev. induction rest as [|x rest IH]; intros prev; simpl; [done|].
  by rewrite IH.
Qed.

Lemma compute_ema_unfold self x0 rest alpha :
  compute_ema self (x0 :: rest) alpha =
    x0 :: ema_spec (alpha_or alpha (ema_alpha self)) x0 rest.
Proof. unfold compute_ema. rewrite ema_loop_spec. reflexivity. Qed.

Lemma ema_spec_step a prev rest (i : nat) (x e : R) :
  rest !! S i = Some x -> ema_spec a prev rest !! i = Some e ->
  ema_spec a prev rest !! S i = Some (a * x + (1 - a) * e).
Proof.
  revert prev i. induction rest as [|y rest IH]; intros prev i; [done|].
  destruct i as [|i]; simpl.
  - destruct rest as [|z rest]; [done|]. simpl. by intros [= ->] [= <-].
  - apply IH.
Qed.

(** X8. The smoothed series has one value per reading, starts at the first
    reading, and every later value is a * x_t + (1 - a) * EMA_(t-1) of the
    reading at its index and the smoothed value just before it, where a is
    the factor passed (the default when none or 0 is passed). *)
Theorem compute_ema_stepwise self (data : list R) (alpha : option R) :
  let a := alpha_or alpha (ema_alpha self) in
  let ema := compute_ema self data alpha in
  length ema = length data
  /\ ema !! 0%nat = data !! 0%nat
  /\ forall (t : nat) (x prev : R),
       data !! S t = Some x -> ema !! t = Some prev ->
       ema !! S t = Some (a * x + (1 - a) * prev).
Proof.
  cbv zeta. destruct data as [|x0 rest]; [by repeat split|].
  rewrite compute_ema_unfold. simpl. rewrite ema_spec_length.
  split; [reflexivity|]. split; [reflexivity|].
  intros t x prev Hx Hprev. destruct t as [|t]; simpl in *.
  - injection Hprev as <-. destruct rest as [|y rest]; [done|].
    simpl in *. by injection Hx as ->.
  - by apply ema_spec_step.
Qed.

Lemma compute_ema_stepwise_witness :
  length (compute_ema init [10; 20; 30] (Some (1 / 2))) = 3%nat
  /\ compute_ema init [10; 20; 30] (Some (1 / 2)) !! 0%nat = Some 10
  /\ compute_ema init [10; 20; 30] (Some (1 / 2)) !! 1%nat
       = Some (1 / 2 * 20 + (1 - 1 / 2) * 10).
Proof.
  pose proof (compute_ema_stepwise init [10; 20; 30] (Some (1 / 2))) as H.
  cbv zeta in H. destruct H as (Hlen & Hfirst & Hstep).
  split; [exact Hlen|]. split; [exact Hfirst|].
  assert (Ha : alpha_or (Some (1 / 2)) (ema_alpha init) = 1 / 2).
  { unfold alpha_or. rewrite decide_False by lra. reflexivity. }
  specialize (Hstep 0%nat 20 10 eq_refl Hfirst).
  rewrite Ha in Hstep. exact Hstep.
Defined.

Lemma ema_spec_app a prev l1 l2 :
  ema_spec a prev (l1 ++ l2) =
    ema_spec a prev l1 ++ ema_spec a (List.last (ema_spec a prev l1) prev) l2.
Proof.
  revert prev. induction l1 as [|x l1 IH]; intros prev; [done|].
  cbn [ema_spec app]. rewrite IH. cbn [app]. do 3 f_equal.
  rewrite !List_last_default.
  destruct (ema_spec a (a * x + (1 - a) * prev) l1) as [|r l] eqn:E;
    [reflexivity|].
  assert (Hsome : is_Some (last (r :: l))) by (by apply last_is_Some).
  destruct Hsome as [y Hy].
  change (last (a * x + (1 - a) * prev :: r :: l)) with (last (r :: l)).
  by rewrite Hy.
Qed.

(** X9. Smoothing is causal: readings appended later never change the values
    already computed, the smoothed series of a prefix is the prefix of the
    smoothed series. *)
Theorem compute_ema_prefix self (xs ys : list R) (alpha : option R) :
  take (length xs) (compute_ema self (xs ++ ys) alpha) = compute_ema self xs alpha.
Proof.
  destruct xs as [|x0 xs]; [by rewrite take_0|].
  change ((x0 :: xs) ++ ys) with (x0 :: (xs ++ ys)).
  rewrite !compute_ema_unfold, ema_spec_app. simpl. f_equal.
  rewrite take_app_length'; [done|]. by rewrite ema_spec_length.
Qed.

Lemma slice_app_prefix {A} (xs ys : list A) (start stop : nat) :
  (stop <= length xs)%nat -> slice (xs ++ ys) start stop = slice xs start stop.
Proof.
  intros Hstop. unfold slice.
  destruct (decide (start <= stop)%nat) as [Hle|Hgt].
  - rewrite skipn_app.
    replace (start - length xs)%nat with 0%nat by lia.
    rewrite firstn_app.
    replace (stop - start - length (skipn start xs))%nat with 0%nat
      by (rewrite length_skipn; lia).
    simpl. by rewrite app_nil_r.
  - replace (stop - start)%nat with 0%nat by lia. reflexivity.
Qed.

Lemma detect_at_prefix self (xs ys : list R) (window_size : Z) (i : nat) :
  (i < length xs)%nat ->
  detect_at self (xs ++ ys) window_size i = detect_at self xs window_size i.
Proof.
  intros Hi. unfold detect_at.
  rewrite slice_app_prefix by lia. rewrite app_nth1 by lia. reflexivity.
Qed.

(** X11. Detection is causal and keeps one verdict per reading: the result has
    the length of the input, and readings appended later never change the
    verdict of an earlier index. *)
Theorem detect_anomalies_prefix self (xs ys : list R) (window_size : Z) (i : nat) :
  (i < length xs)%nat ->
  length (detect_anomalies self (xs ++ ys) window_size) = length (xs ++ ys)
  /\ detect_anomalies self (xs ++ ys) window_size !! i
       = detect_anomalies self xs window_size !! i.
Proof.
  intros Hi. split; [apply detect_anomalies_length|].
  rewrite !detect_anomalies_lookup by (rewrite ?length_app; lia).
  by rewrite detect_at_prefix.
Qed.

Lemma detect_anomalies_prefix_witness :
  length (detect_anomalies init (spike ++ [50]) 24) = length (spike ++ [50])
  /\ detect_anomalies init (spike ++ [50]) 24 !! 2%nat
       = detect_anomalies init spike 24 !! 2%nat.
Proof.
  apply (detect_anomalies_prefix init spike [50] 24 2). simpl. lia.
Defined.

Lemma Rsum_replicate (n : nat) (c : R) : Rsum (replicate n c) = INR n * c.
Proof.
  induction n as [|n IH]; [simpl; lra|].
  change (Rsum (replicate (S n) c)) with (c + Rsum (replicate n c)).
  rewrite IH, S_INR. lra.
Qed.

Lemma np_mean_replicate (n : nat) (c : R) :
  (0 < n)%nat -> np_mean (replicate n c) = c.
Proof.
  intros Hn. unfold np_mean. rewrite Rsum_replicate, length_replicate.
  field. apply not_0_INR. lia.
Qed.

Lemma slice_replicate {A} (n start stop : nat) (c : A) :
  slice (replicate n c) start stop =
    replicate (Nat.min (stop - start) (n - start)) c.
Proof. unfold slice. by rewrite drop_replicate, take_replicate. Qed.

Lemma removelast_replicate {A} (n : nat) (c : A) :
  removelast (replicate (S n) c) = replicate n c.
Proof.
  induction n as [|n IH]; [reflexivity|].
  change (replicate (S (S n)) c) with (c :: replicate (S n) c).
  change (removelast (c :: replicate (S n) c))
    with (c :: removelast (replicate (S n) c)).
  by rewrite IH.
Qed.

(** X12. A flat series raises no alarm: every reading gets a verdict that is not
    anomalous, of severity low, and that reports the reading itself as the
    actual value. *)
Theorem detect_anomalies_constant (n : nat) (c : R) (window_size : Z) (i : nat)
  (r : AnomalyResult) :
  detect_anomalies init (replicate n c) window_size !! i = Some r ->
  is_anomaly r = false /\ severity r = "low" /\ actual_value r = c.
Proof.
  intros Hr.
  assert (Hi : (i < n)%nat).
  { apply lookup_lt_Some in Hr.
    by rewrite detect_anomalies_length, length_replicate in Hr. }
  rewrite detect_anomalies_lookup in Hr by (by rewrite length_replicate).
  injection Hr as <-. unfold detect_at. cbv zeta.
  rewrite slice_replicate.
  rewrite nth_lookup, lookup_replicate_2 by done.
  change (default 0 (Some c)) with c.
  set (k := Nat.min _ _). rewrite length_replicate.
  destruct (decide (k < 3)%nat) as [Hk|Hk]; [done|].
  rewrite !decide_True by lia.
  destruct k as [|k]; [lia|]. rewrite removelast_replicate.
  rewrite np_mean_replicate by lia.
  replace ((c - c) / Rmax (np_std (replicate k c)) (1 / 1000000)) with 0
    by (unfold Rdiv; lra).
  rewrite Rabs_R0. simpl.
  rewrite bool_decide_eq_false_2 by lra.
  repeat split.
Qed.

Lemma detect_anomalies_constant_witness :
  is_anomaly flat_verdict = false /\ severity flat_verdict = "low"
  /\ actual_value flat_verdict = 50.
Proof.
  apply (detect_anomalies_constant 5 50 24 4 flat_verdict).
  rewrite detect_anomalies_lookup by (simpl; lia). reflexivity.
Defined.

End Streaming.

(** ** Arrival rate: what the estimate depends on *)

Section ArrivalRateMore.
Local Open Scope R_scope.

Lemma sorted_of_permutation (ts ts' : list datetime) :
  ts ≡ₚ ts' -> sorted ts = sorted ts'.
Proof.
  intros Hp. apply (StronglySorted_unique Z.le); try apply sorted_strongly.
  by rewrite !sorted_perm.
Qed.

(** X13. The estimate depends on the timestamps as a multiset only: any
    reordering of the input, and any value of the interval argument, gives
    the same result. *)
Theorem estimate_arrival_rate_permutation self (ts ts' : list datetime)
  (interval_minutes interval_minutes' : Z) :
  ts ≡ₚ ts' ->
  estimate_arrival_rate self ts interval_minutes
    = estimate_arrival_rate self ts' interval_minutes'.
Proof.
  intros Hp. unfold estimate_arrival_rate.
  rewrite (sorted_of_permutation ts ts' Hp), (Permutation_length Hp).
  reflexivity.
Qed.

Lemma estimate_arrival_rate_permutation_witness :
  estimate_arrival_rate init two_arrivals 60
    = estimate_arrival_rate init [0; 3600000000]%Z 15.
Proof.
  apply (estimate_arrival_rate_permutation init two_arrivals
           [0; 3600000000]%Z 60 15).
  unfold two_arrivals. apply Permutation_swap.
Defined.

Lemma sorted_shift (d : timedelta) (ts : list datetime) :
  sorted (map (fun t => (t + d)%Z) ts) = map (fun t => (t + d)%Z) (sorted ts).
Proof.
  apply (StronglySorted_unique Z.le); [apply sorted_strongly | |].
  - apply (StronglySorted_fmap _ Z.le Z.le); [|apply sorted_strongly].
    intros x y Hxy. unfold datetime, timedelta in *. lia.
  - rewrite sorted_perm. apply Permutation_map. symmetry. apply sorted_perm.
Qed.

Lemma inter_arrivals_shift (d : timedelta) (l : list datetime) :
  inter_arrivals_of (map (fun t => (t + d)%Z) l) = inter_arrivals_of l.
Proof.
  induction l as [|a [|b l] IH]; [done..|].
  change (inter_arrivals_of (a :: b :: l))
    with (total_seconds (b - a)%Z / 60 :: inter_arrivals_of (b :: l)).
  rewrite <- IH. cbn [map inter_arrivals_of]. do 3 f_equal.
  change (b + d - (a + d) = b - a)%Z. ring.
Qed.

Lemma span_shift (d : timedelta) (l : list datetime) :
  (List.last (map (fun t => (t + d)%Z) l) 0 - hd 0 (map (fun t => (t + d)%Z) l)
   = List.last l 0 - hd 0 l)%Z.
Proof.
  unfold datetime, timedelta in *.
  destruct l as [|a l]; [reflexivity|].
  rewrite !List_last_default.
  change (map (fun t => (t + d)%Z) (a :: l))
    with ((fun t => (t + d)%Z) <$> (a :: l)).
  rewrite fmap_last.
  assert (Hsome : is_Some (last (a :: l))) by (by apply last_is_Some).
  destruct Hsome as [y Hy]. rewrite Hy. simpl. lia.
Qed.

(** X14. The estimate depends on the gaps between the arrivals only: moving
    every timestamp by the same amount changes nothing. *)
Theorem estimate_arrival_rate_shift self (ts : list datetime) (d : timedelta)
  (interval_minutes : Z) :
  estimate_arrival_rate self (map (fun t => (t + d)%Z) ts) interval_minutes
    = estimate_arrival_rate self ts interval_minutes.
Proof.
  unfold estimate_arrival_rate.
  rewrite sorted_shift, inter_arrivals_shift, span_shift, length_map.
  reflexivity.
Qed.

Lemma inter_arrivals_mean_nonneg (s : list datetime) :
  StronglySorted Z.le s -> (2 <= length s)%nat ->
  0 <= np_mean (inter_arrivals_of s).
Proof.
  intros Hs Hlen.
  assert (Hne : s <> []) by (intros ->; simpl in Hlen; lia).
  pose proof (strongly_sorted_ends s Hs _ (hd_elem_of s Hne)) as [_ Hspan].
  unfold np_mean. rewrite inter_arrivals_sum by done.
  rewrite inter_arrivals_length. unfold total_seconds.
  assert (Hn : 0 < INR (length s - 1)) by (apply lt_0_INR; lia).
  assert (Hd : 0 <= IZR (List.last s 0 - hd 0 s)%Z)
    by (apply (IZR_le 0); unfold datetime in *; lia).
  pose proof (Rinv_0_lt_compat _ Hn). unfold Rdiv. nra.
Qed.

Lemma round_nonneg (x : R) (n : nat) : 0 <= x -> 0 <= round x n.
Proof.
  intros Hx. apply Rle_trans with (round 0 n); [|by apply round_mono].
  rewrite (round_IZR 0 n). lra.
Qed.

(** X15. No reported value is ever negative, and since the elapsed time is
    floored at one minute the reported rate is at most 60 arrivals per hour
    for each timestamp supplied. *)
Theorem estimate_arrival_rate_range self (ts : list datetime)
  (interval_minutes : Z) (key : string) (v : R) :
  estimate_arrival_rate self ts interval_minutes !! key = Some v ->
  0 <= v /\ (key = "lambda" -> v <= 60 * INR (length ts)).
Proof.
  assert (Hn : 0 <= INR (length ts)) by apply pos_INR.
  assert (Hzero : zero_rate !! key = Some v ->
            0 <= v /\ (key = "lambda" -> v <= 60 * INR (length ts))).
  { unfold zero_rate. intros H.
    repeat (apply lookup_insert_Some in H as [[_ <-]|[_ H]]; [split; [lra|nra]|]).
    apply lookup_singleton_Some in H as [_ <-]. split; [lra|nra]. }
  unfold estimate_arrival_rate.
  case_decide as Hlen; [exact Hzero|].
  case_decide as Hguard; [exact Hzero|].
  set (T := Rmax _ (1 / 60)).
  assert (HT : 1 / 60 <= T) by apply Rmax_r.
  assert (Hi : 0 < / T <= 60).
  { split; [apply Rinv_0_lt_compat; lra|].
    replace 60 with (/ (1 / 60)) by (field; lra).
    apply Rinv_le_contravar; lra. }
  assert (Hrate : 0 <= INR (length ts) / T <= 60 * INR (length ts))
    by (unfold Rdiv; nra).
  intros H.
  apply lookup_insert_Some in H as [[<- <-]|[_ H]].
  { split; [apply round_nonneg; lra|]. intros _.
    apply Rle_trans with (round (60 * INR (length ts)) 4);
      [apply round_mono; lra|].
    rewrite INR_IZR_INZ, <- mult_IZR, (round_IZR _ 4). lra. }
  apply lookup_insert_Some in H as [[<- <-]|[Hk H]].
  { split; [apply round_nonneg; lra | done]. }
  apply lookup_insert_Some in H as [[<- <-]|[Hk' H]].
  { split; [apply round_nonneg, sqrt_pos | done]. }
  apply lookup_singleton_Some in H as [<- <-].
  split; [|done]. apply round_nonneg, inter_arrivals_mean_nonneg.
  - apply sorted_strongly.
  - rewrite (Permutation_length (sorted_perm ts)). lia.
Qed.

Lemma estimate_arrival_rate_range_witness :
  0 <= 2 /\ ("lambda" = "lambda" -> 2 <= 60 * INR (length two_arrivals)).
Proof.
  apply (estimate_arrival_rate_range init two_arrivals 60 "lambda" 2).
  apply estimate_arrival_rate_two.
Defined.

End ArrivalRateMore.

(** ** Hour-of-day buckets and peak hours *)

Section HourBuckets.
Local Open Scope R_scope.

Lemma rates_at_cons h rate ts pairs :
  rates_at h ((rate, ts) :: pairs) =
    if decide (hour ts = h) then rate :: rates_at h pairs else rates_at h pairs.
Proof.
  unfold rates_at. rewrite filter_cons. simpl. by case_decide.
Qed.

Lemma group_fold (pairs : list (R * datetime)) (acc : gmap Z (list R)) (h : Z) :
  fold_left (fun acc '(rate, ts) =>
               <[hour ts := default [] (acc !! hour ts) ++ [rate]]> acc)
            pairs acc !! h
  = match acc !! h with
    | Some old => Some (old ++ rates_at h pairs)
    | None => if decide (rates_at h pairs = []) then None
              else Some (rates_at h pairs)
    end.
Proof.
  revert acc. induction pairs as [|[rate ts] pairs IH]; intros acc.
  - simpl. destruct (acc !! h); [by rewrite app_nil_r | done].
  - cbn [fold_left]. rewrite IH, rates_at_cons.
    destruct (decide (hour ts = h)) as [->|Hne].
    + rewrite lookup_insert_eq.
      destruct (acc !! h) as [old|]; simpl.
      * by rewrite <- app_assoc.
      * by rewrite ?decide_False.
    + by rewrite lookup_insert_ne.
Qed.

(** X16. The seasonal buckets of the forecast: the bucket of an hour of day
    holds exactly the rates whose timestamp falls in that hour, in input
    order, and an hour that was never observed has no bucket. *)
Theorem group_by_hour_lookup (pairs : list (R * datetime)) (h : Z) :
  group_by_hour pairs !! h =
    if decide (rates_at h pairs = []) then None else Some (rates_at h pairs).
Proof. unfold group_by_hour. rewrite group_fold. by rewrite lookup_empty. Qed.

Lemma odict_append_keys k v d :
  (odict_append k v d).*1 = if decide (k ∈ d.*1) then d.*1 else d.*1 ++ [k].
Proof.
  induction d as [|[k' vs] d IH]; [reflexivity|]. cbn [odict_append].
  destruct (decide (k' = k)) as [->|Hne].
  - rewrite decide_True by (left). reflexivity.
  - cbn [fmap list_fmap fst]. change (list_fmap _ _ fst ?l) with (l.*1).
    rewrite IH. destruct (decide (k ∈ d.*1)).
    + rewrite decide_True by (by right). reflexivity.
    + rewrite decide_False; [reflexivity|].
      intros Hin. apply elem_of_cons in Hin as [?|?]; congruence.
Qed.

Lemma odict_append_NoDup k v d : NoDup d.*1 -> NoDup (odict_append k v d).*1.
Proof.
  intros Hnd. rewrite odict_append_keys. case_decide; [done|].
  apply NoDup_app. split; [done|]. split; [|apply NoDup_singleton].
  intros x Hx Hk. apply list_elem_of_singleton in Hk. by subst.
Qed.

Lemma odict_append_map k v (d : list (Z * list R)) :
  (list_to_map (odict_append k v d) : gmap Z (list R)) =
    <[k := default [] ((list_to_map d : gmap Z (list R)) !! k) ++ [v]]>
      (list_to_map d).
Proof.
  induction d as [|[k' vs] d IH]; [reflexivity|]. cbn [odict_append].
  destruct (decide (k' = k)) as [->|Hne]; cbn [list_to_map foldr uncurry].
  - change (foldr _ ∅ d) with (list_to_map d : gmap Z (list R)).
    by rewrite lookup_insert_eq, insert_insert_eq.
  - change (foldr _ ∅ ?l) with (list_to_map l : gmap Z (list R)).
    rewrite IH, lookup_insert_ne by done.
    by apply insert_insert_ne.
Qed.

Lemma hourly_data_fold (pairs : list (R * datetime)) (d : list (Z * list R)) :
  NoDup d.*1 ->
  NoDup (fold_left (fun d '(rate, ts) => odict_append (hour ts) rate d) pairs d).*1
  /\ (list_to_map
        (fold_left (fun d '(rate, ts) => odict_append (hour ts) rate d) pairs d)
      : gmap Z (list R))
     = fold_left (fun acc '(rate, ts) =>
                    <[hour ts := default [] (acc !! hour ts) ++ [rate]]> acc)
                 pairs (list_to_map d).
Proof.
  revert d. induction pairs as [|[rate ts] pairs IH]; intros d Hnd; [done|].
  cbn [fold_left].
  destruct (IH (odict_append (hour ts) rate d) (odict_append_NoDup _ _ _ Hnd))
    as [Hnd' Hmap].
  split; [exact Hnd'|]. by rewrite Hmap, odict_append_map.
Qed.

(** The insertion-ordered dict of [find_peak_hours] has one item per
    observed hour, holding the rates of that hour. *)
Lemma hourly_data_spec (pairs : list (R * datetime)) :
  NoDup (hourly_data_of pairs).*1
  /\ forall h vs, (h, vs) ∈ hourly_data_of pairs <->
                  vs = rates_at h pairs /\ vs <> [].
Proof.
  destruct (hourly_data_fold pairs [] (NoDup_nil_2)) as [Hnd Hmap].
  split; [exact Hnd|]. intros h vs.
  rewrite (elem_of_list_to_map (M:=gmap Z)) by exact Hnd.
  unfold hourly_data_of. rewrite Hmap. cbn [list_to_map foldr].
  rewrite group_fold, lookup_empty.
  case_decide as He; split.
  - discriminate.
  - intros [-> Hne]. done.
  - intros [= <-]. done.
  - intros [-> _]. done.
Qed.

Lemma insert_desc_perm x l : insert_desc x l ≡ₚ x :: l.
Proof.
  induction l as [|y l IH]; [done|]. cbn [insert_desc].
  case_decide; [|done]. rewrite IH. apply Permutation_swap.
Qed.

Lemma sorted_desc_perm l : sorted_desc l ≡ₚ l.
Proof.
  induction l as [|x l IH]; [done|]. cbn [sorted_desc foldr].
  fold (sorted_desc l). by rewrite insert_desc_perm, IH.
Qed.

Lemma insert_desc_sorted x l :
  StronglySorted (fun a b : Z * R => b.2 <= a.2) l ->
  StronglySorted (fun a b : Z * R => b.2 <= a.2) (insert_desc x l).
Proof.
  induction 1 as [|y l Hs IH Hall]; cbn [insert_desc].
  - repeat constructor.
  - case_decide as Hlt.
    + constructor; [exact IH|].
      rewrite insert_desc_perm. constructor; [lra | exact Hall].
    + constructor; [by constructor|].
      constructor; [lra|]. eapply Forall_impl; [exact Hall|].
      intros z Hz. simpl in *. lra.
Qed.

Lemma sorted_desc_sorted l :
  StronglySorted (fun a b : Z * R => b.2 <= a.2) (sorted_desc l).
Proof.
  induction l as [|x l IH]; [constructor|]. by apply insert_desc_sorted.
Qed.

Lemma slice_to_prefix {A} (n : Z) (l : list A) :
  exists m, slice_to n l = take m l /\ ((0 <= n)%Z -> m = Z.to_nat n).
Proof.
  unfold slice_to. case_decide; eexists; (split; [reflexivity|]); [done|lia].
Qed.

Lemma hour_range (ts : datetime) : (0 <= hour ts < 24)%Z.
Proof. unfold hour. apply Z.mod_pos_bound. lia. Qed.

Lemma rates_at_hour_range h pairs : rates_at h pairs <> [] -> (0 <= h < 24)%Z.
Proof.
  induction pairs as [|[rate ts] pairs IH]; [done|].
  rewrite rates_at_cons. case_decide as Hh; [|exact IH].
  intros _. subst h. apply hour_range.
Qed.

Lemma NoDup_hours_length (l : list Z) :
  NoDup l -> (forall h, h ∈ l -> (0 <= h < 24)%Z) -> (length l <= 24)%nat.
Proof.
  intros Hnd Hr.
  assert (Hsub : l ⊆+ seqZ 0 24).
  { apply NoDup_submseteq; [done|]. intros h Hh. apply elem_of_seqZ.
    specialize (Hr h Hh). lia. }
  apply submseteq_length in Hsub. by rewrite length_seqZ in Hsub.
Qed.

(** The averages the ranking works on, before the cut: one pair per
    observed hour, sorted. *)
Lemma ranked_averages (pairs : list (R * datetime)) :
  let avgs := map (fun '(h, values) => (h, np_mean values)) (hourly_data_of pairs) in
  sorted_desc avgs ≡ₚ avgs
  /\ StronglySorted (fun a b : Z * R => b.2 <= a.2) (sorted_desc avgs)
  /\ avgs.*1 = (hourly_data_of pairs).*1
  /\ forall h a, (h, a) ∈ avgs <->
                 a = np_mean (rates_at h pairs) /\ rates_at h pairs <> [].
Proof.
  destruct (hourly_data_spec pairs) as [Hnd Hspec]. cbv zeta.
  split; [apply sorted_desc_perm|]. split; [apply sorted_desc_sorted|].
  split.
  - rewrite <- list_fmap_compose. apply list_fmap_ext. by intros i [h vs] _.
  - intros h a. rewrite list_elem_of_fmap. split.
    + intros ([h' vs] & [= -> ->] & Hin). apply Hspec in Hin as [-> Hne]. done.
    + intros [-> Hne]. exists (h, rates_at h pairs). split; [done|].
      by apply Hspec.
Qed.

(** X17. The hours returned by [find_peak_hours] are distinct hours of day that
    were observed, each reported with the rounded mean of exactly the rates
    of that hour; there are at most 24 of them, and at most [top_n] when
    [top_n] is not negative. *)
Theorem find_peak_hours_entries self (rates : list R) (ts : list datetime)
  (top_n : Z) :
  let result := find_peak_hours self rates ts top_n in
  NoDup (map peak_hour result)
  /\ (length result <= 24)%nat
  /\ ((0 <= top_n)%Z -> (length result <= Z.to_nat top_n)%nat)
  /\ forall e, e ∈ result ->
       (0 <= peak_hour e < 24)%Z
       /\ rates_at (peak_hour e) (combine rates ts) <> []
       /\ avg_occupancy_rate e
            = round (np_mean (rates_at (peak_hour e) (combine rates ts))) 2.
Proof.
  cbv zeta. unfold find_peak_hours.
  set (pairs := combine rates ts).
  destruct (ranked_averages pairs) as (Hperm & _ & Hkeys & Havg). cbv zeta in *.
  destruct (hourly_data_spec pairs) as [Hnd _].
  set (avgs := map _ (hourly_data_of pairs)) in *.
  destruct (slice_to_prefix top_n (sorted_desc avgs)) as (m & Hslice & Hm).
  rewrite Hslice. clear Hslice.
  assert (Hhours : map peak_hour
            (map (fun '(h, avg) =>
                    {| peak_hour := h; avg_occupancy_rate := round avg 2;
                       label := pad2 h +:+ ":00 - " +:+ pad2 ((h + 1) mod 24)%Z
                                +:+ ":00" |})
                 (take m (sorted_desc avgs)))
          = (take m (sorted_desc avgs)).*1).
  { rewrite map_map. apply list_fmap_ext. by intros i [h a] _. }
  assert (Hnd_sorted : NoDup (sorted_desc avgs).*1).
  { rewrite Hperm, Hkeys. exact Hnd. }
  assert (Hin : forall h a, (h, a) ∈ take m (sorted_desc avgs) ->
                  a = np_mean (rates_at h pairs) /\ rates_at h pairs <> []).
  { intros h a Hha. apply Havg. rewrite <- Hperm.
    rewrite <- (take_drop m (sorted_desc avgs)). apply elem_of_app. by left. }
  assert (Hnd_take : NoDup (take m (sorted_desc avgs)).*1).
  { rewrite fmap_take. eapply sublist_NoDup; [exact Hnd_sorted | apply sublist_take]. }
  split; [by rewrite Hhours|].
  split.
  { rewrite length_map. 
    rewrite <- (length_fmap fst). apply NoDup_hours_length; [done|].
    intros h Hh. apply list_elem_of_fmap in Hh as ([h' a] & -> & Hha).
    apply Hin in Hha as [_ Hne]. by apply rates_at_hour_range in Hne. }
  split.
  { intros Hn. rewrite length_map, length_take. specialize (Hm Hn). lia. }
  intros e He. apply list_elem_of_fmap in He as ([h a] & -> & Hha).
  apply Hin in Hha as [-> Hne]. simpl.
  split; [by apply rates_at_hour_range in Hne|]. done.
Qed.

(** X18. The ranking: the returned hours come in non-increasing order of their
    reported average, and no observed hour that was left out has a higher
    reported average than a returned one. *)
Theorem find_peak_hours_ranked self (rates : list R) (ts : list datetime)
  (top_n : Z) :
  let result := find_peak_hours self rates ts top_n in
  StronglySorted (fun a b => avg_occupancy_rate b <= avg_occupancy_rate a) result
  /\ forall e h,
       e ∈ result -> rates_at h (combine rates ts) <> [] ->
       h ∉ map peak_hour result ->
       round (np_mean (rates_at h (combine rates ts))) 2 <= avg_occupancy_rate e.
Proof.
  cbv zeta. unfold find_peak_hours.
  set (pairs := combine rates ts).
  destruct (ranked_averages pairs) as (Hperm & Hsorted & _ & Havg).
  cbv zeta in *. set (avgs := map _ (hourly_data_of pairs)) in *.
  destruct (slice_to_prefix top_n (sorted_desc avgs)) as (m & Hslice & _).
  rewrite Hslice. clear Hslice.
  set (mk := fun '(h, avg) =>
               {| peak_hour := h; avg_occupancy_rate := round avg 2;
                  label := pad2 h +:+ ":00 - " +:+ pad2 ((h + 1) mod 24)%Z
                           +:+ ":00" |}).
  rewrite <- (take_drop m (sorted_desc avgs)) in Hsorted, Hperm.
  split.
  - apply StronglySorted_app_1_l in Hsorted.
    change (map mk ?l) with (mk <$> l).
    apply (StronglySorted_fmap mk (fun a b : Z * R => b.2 <= a.2)); [|done].
    intros [h1 a1] [h2 a2] Hle. simpl in *. by apply round_mono.
  - intros e h He Hobs Hout.
    apply list_elem_of_fmap in He as ([h1 a1] & -> & Hin1). simpl.
    assert (Hh : (h, np_mean (rates_at h pairs)) ∈ drop m (sorted_desc avgs)).
    { assert (Hall : (h, np_mean (rates_at h pairs))
                       ∈ take m (sorted_desc avgs) ++ drop m (sorted_desc avgs)).
      { rewrite Hperm. by apply Havg. }
      apply elem_of_app in Hall as [Hin|Hin]; [|done].
      exfalso. apply Hout. change (map peak_hour (map mk ?l)) with (peak_hour <$> (mk <$> l)).
      rewrite <- list_fmap_compose. apply list_elem_of_fmap.
      by exists (h, np_mean (rates_at h pairs)). }
    apply round_mono.
    apply (StronglySorted_app_1_elem_of _ _ _ (h1, a1) _ Hsorted Hin1 Hh).
Qed.

End HourBuckets.

Section PeakHourInstances.
Local Open Scope R_scope.

Lemma find_peak_hours_entries_witness :
  let result := find_peak_hours init peak_rates peak_times 1 in
  NoDup (map peak_hour result)
  /\ (length result <= 24)%nat
  /\ ((0 <= 1)%Z -> (length result <= Z.to_nat 1)%nat)
  /\ forall e, e ∈ result ->
       (0 <= peak_hour e < 24)%Z
       /\ rates_at (peak_hour e) (combine peak_rates peak_times) <> []
       /\ avg_occupancy_rate e
            = round (np_mean (rates_at (peak_hour e) (combine peak_rates peak_times))) 2.
Proof. apply (find_peak_hours_entries init peak_rates peak_times 1). Defined.

Lemma find_peak_hours_ranked_witness :
  let result := find_peak_hours init peak_rates peak_times 1 in
  StronglySorted (fun a b => avg_occupancy_rate b <= avg_occupancy_rate a) result
  /\ forall e h,
       e ∈ result -> rates_at h (combine peak_rates peak_times) <> [] ->
       h ∉ map peak_hour result ->
       round (np_mean (rates_at h (combine peak_rates peak_times))) 2
         <= avg_occupancy_rate e.
Proof. apply (find_peak_hours_ranked init peak_rates peak_times 1). Defined.

End PeakHourInstances.

(** ** Shape of a forecast *)

Section ForecastShape.
Local Open Scope R_scope.

(** X19. For every input, each of the four series of a forecast has
    max(0, horizon_hours) items (none for a horizon that is not positive),
    and every timestamp is a whole number of hours after [now]: the flat
    forecast for a short history starts at [now] itself, the full forecast
    one hour later. *)
Theorem forecast_occupancy_shape self (rates : list R) (ts : list datetime)
  (horizon_hours : Z) (now : datetime) :
  let r := forecast_occupancy self rates ts horizon_hours now in
  length (timestamps r) = Z.to_nat horizon_hours
  /\ length (predicted_occupancy r) = Z.to_nat horizon_hours
  /\ length (confidence_lower r) = Z.to_nat horizon_hours
  /\ length (confidence_upper r) = Z.to_nat horizon_hours
  /\ forall i : nat, (i < Z.to_nat horizon_hours)%nat ->
       timestamps r !! i =
         Some (now + timedelta_hours
                       (Z.of_nat i + (if decide (length rates < 24)%nat then 0 else 1)))%Z.
Proof.
  cbv zeta. unfold forecast_occupancy.
  destruct (decide (length rates < 24)%nat) as [Hshort|Hlong].
  - cbn [timestamps predicted_occupancy confidence_lower confidence_upper].
    rewrite !length_replicate, length_map. unfold range.
    rewrite length_seq. repeat split. intros i Hi.
    rewrite list_lookup_fmap, lookup_seq_lt by done. simpl.
    by rewrite Z.add_0_r.
  - rewrite forecast_fold.
    cbn [timestamps predicted_occupancy confidence_lower confidence_upper app].
    rewrite !length_map. unfold range. rewrite length_seq. repeat split.
    intros i Hi. change (map ?f ?l) with (f <$> l).
    rewrite list_lookup_fmap, lookup_seq_lt by done. reflexivity.
Qed.

Lemma forecast_occupancy_shape_witness :
  let r := forecast_occupancy init [50; 60] [0%Z; 0%Z] 6 0%Z in
  length (timestamps r) = 6%nat
  /\ length (predicted_occupancy r) = 6%nat
  /\ length (confidence_lower r) = 6%nat
  /\ length (confidence_upper r) = 6%nat
  /\ timestamps r !! 2%nat = Some (0 + timedelta_hours (2 + 0))%Z.
Proof.
  destruct (forecast_occupancy_shape init [50; 60] [0%Z; 0%Z] 6 0%Z)
    as (H1 & H2 & H3 & H4 & Hts).
  split; [exact H1|]. split; [exact H2|]. split; [exact H3|].
  split; [exact H4|]. apply (Hts 2%nat). simpl. lia.
Defined.

(** A horizon that is not positive gives four empty series. *)
Example forecast_occupancy_no_horizon :
  let r := forecast_occupancy init [50; 60] [0%Z; 0%Z] (-3) 0%Z in
  timestamps r = [] /\ predicted_occupancy r = []
  /\ confidence_lower r = [] /\ confidence_upper r = [].
Proof.
  repeat split; reflexivity.
Qed.

End ForecastShape.

(** ** Hub operations in sequence *)

Section HubSequences.

(** X20. Two broadcasts in a row, neither disturbed by another task: both
    return normally, the second one finds nobody left to prune, so the
    live set after it is the live set after the first, and every live
    subscriber that can be reached has received both messages, in the
    order they were sent, after what it already had. *)
Theorem broadcast_twice (env1 env2 : interference) (self : ConnectionManager)
  (m1 m2 : message) (net : Net) :
  undisturbed env1 self ->
  undisturbed env2
    {| active_connections :=
         filter (fun c => c ∈ healthy net) (active_connections self) |} ->
  exists self1 net1 self2 net2,
    broadcast env1 self m1 net = (Ok tt, self1, net1)
    /\ broadcast env2 self1 m2 net1 = (Ok tt, self2, net2)
    /\ active_connections self2 = active_connections self1
    /\ forall c, c ∈ active_connections self -> c ∈ healthy net ->
         received net2 c = received net c ++ [m1; m2].
Proof.
  intros Hq1 Hq2.
  destruct (broadcast_undisturbed env1 self m1 net Hq1)
    as (self1 & net1 & Hb1 & Hlive1 & Hh1 & Hrecv1 & _).
  assert (Hself1 : self1 = {| active_connections :=
            filter (fun c => c ∈ healthy net) (active_connections self) |})
    by (destruct self1; simpl in *; by f_equal).
  rewrite <- Hself1 in Hq2.
  destruct (broadcast_undisturbed env2 self1 m2 net1 Hq2)
    as (self2 & net2 & Hb2 & Hlive2 & _ & Hrecv2 & _).
  exists self1, net1, self2, net2.
  split; [exact Hb1|]. split; [exact Hb2|]. split.
  - rewrite Hlive2, Hh1, Hlive1. apply set_eq. intros c.
    rewrite !elem_of_filter. tauto.
  - intros c Hc Hok. rewrite Hrecv2.
    + rewrite Hrecv1 by done. by rewrite <- app_assoc.
    + rewrite Hlive1, elem_of_filter. done.
    + by rewrite Hh1.
Qed.

Lemma broadcast_twice_witness :
  exists s1 n1 s2 n2,
    broadcast quiet hub2 "event" net2 = (Ok tt, s1, n1)
    /\ broadcast quiet s1 "alert" n1 = (Ok tt, s2, n2)
    /\ active_connections s2 = active_connections s1
    /\ forall c, c ∈ active_connections hub2 -> c ∈ healthy net2 ->
         received n2 c = received net2 c ++ ["event"; "alert"].
Proof.
  apply (broadcast_twice quiet quiet hub2 "event" "alert" net2);
    apply quiet_undisturbed.
Defined.

(** X21. [disconnect] is idempotent and removes nobody else; a subscriber
    that was disconnected gets nothing from a later broadcast even when its
    socket still works, and when no other task disturbs that broadcast the
    reachable subscribers that stay are served as before. *)
Theorem disconnect_then_broadcast env (self : ConnectionManager) (c : WebSocket)
  (msg : message) (net : Net) :
  undisturbed env (disconnect self c) ->
  disconnect (disconnect self c) c = disconnect self c
  /\ (forall c', (c' ∈ active_connections (disconnect self c)) <->
                 (c' ∈ active_connections self /\ c' <> c))
  /\ exists self' net',
       broadcast env (disconnect self c) msg net = (Ok tt, self', net')
       /\ received net' c = received net c
       /\ (c ∉ active_connections self')
       /\ forall c', c' ∈ active_connections self -> c' <> c ->
            c' ∈ healthy net -> received net' c' = received net c' ++ [msg].
Proof.
  intros Hq. split; [|split].
  - unfold disconnect. simpl. f_equal. set_solver.
  - intros c'. unfold disconnect. simpl. set_solver.
  - destruct (broadcast_undisturbed env (disconnect self c) msg net Hq)
      as (self' & net' & Hb & Hlive & _ & Hrecv & Hkeep).
    exists self', net'. split; [exact Hb|]. split; [|split].
    + apply Hkeep. unfold disconnect. simpl. set_solver.
    + rewrite Hlive, elem_of_filter. unfold disconnect. simpl. set_solver.
    + intros c' Hc' Hne Hok. apply Hrecv; [|done].
      unfold disconnect. simpl. set_solver.
Qed.

Lemma disconnect_then_broadcast_witness :
  disconnect (disconnect hub2 1%nat) 1%nat = disconnect hub2 1%nat
  /\ (forall c', (c' ∈ active_connections (disconnect hub2 1%nat)) <->
                 (c' ∈ active_connections hub2 /\ c' <> 1%nat))
  /\ exists self' net',
       broadcast quiet (disconnect hub2 1%nat) "event" net2 = (Ok tt, self', net')
       /\ received net' 1%nat = received net2 1%nat
       /\ (1%nat ∉ active_connections self')
       /\ forall c', c' ∈ active_connections hub2 -> c' <> 1%nat ->
            c' ∈ healthy net2 -> received net' c' = received net2 c' ++ ["event"].
Proof.
  apply (disconnect_then_broadcast quiet hub2 1%nat "event" net2).
  apply quiet_undisturbed.
Defined.

(** X22. [send_personal] never raises. It delivers to the given socket whenever
    that socket works, whether or not it is in the live set, and then
    changes neither the live set nor anyone else's inbox; when the send
    fails nothing is delivered and exactly that socket is dropped from the
    live set. *)
Theorem send_personal_effect (self : ConnectionManager) (c : WebSocket)
  (msg : message) (net : Net) :
  exists self' net',
    send_personal self c msg net = (Ok tt, self', net')
    /\ (forall c', c' <> c -> received net' c' = received net c')
    /\ (c ∈ healthy net ->
          self' = self /\ received net' c = received net c ++ [msg])
    /\ (c ∉ healthy net ->
          net' = net
          /\ active_connections self' = active_connections self ∖ {[c]}).
Proof.
  unfold send_personal.
  destruct (decide (c ∈ healthy net)) as [Hok|Hbad].
  - pose proof (received_send_same c msg net Hok) as Hsame.
    pose proof (fun c' => received_send_other c msg net c') as Hother.
    unfold send_json in *. rewrite decide_True in * by done.
    eexists _, _. split; [reflexivity|]. split; [exact Hother|].
    split; [done|]. intros Hbad. done.
  - rewrite send_unhealthy by done.
    eexists _, _. split; [reflexivity|]. split; [done|].
    split; [done|]. intros _. done.
Qed.

Lemma send_personal_effect_witness :
  exists self' net',
    send_personal hub2 2%nat "heartbeat" net2 = (Ok tt, self', net')
    /\ (forall c', c' <> 2%nat -> received net' c' = received net2 c')
    /\ (2%nat ∈ healthy net2 ->
          self' = hub2 /\ received net' 2%nat = received net2 2%nat ++ ["heartbeat"])
    /\ (2%nat ∉ healthy net2 ->
          net' = net2
          /\ active_connections self' = active_connections hub2 ∖ {[2%nat]}).
Proof. apply (send_personal_effect hub2 2%nat "heartbeat" net2). Defined.

End HubSequences.

(** ** Counting detections by class *)

Section Counting.

Lemma count_class_cons cls v vs :
  count_class cls (v :: vs) =
    ((if decide (vehicle_class v = cls) then 1 else 0) + count_class cls vs).
Proof.
  unfold count_class. rewrite filter_cons.
  case_decide; cbn [length]; lia.
Qed.

Lemma count_fold (vs : list DetectedVehicle) (counts : gmap string Z) (cls : string) :
  fold_left
    (fun counts v =>
       if decide (is_Some (counts !! vehicle_class v))
       then <[vehicle_class v := default 0 (counts !! vehicle_class v) + 1]> counts
       else counts)
    vs counts !! cls
  = (fun n => n + count_class cls vs) <$> counts !! cls.
Proof.
  revert counts. induction vs as [|v vs IH]; intros counts.
  - simpl. destruct (counts !! cls) as [n|]; simpl; [|done].
    unfold count_class. simpl. f_equal. lia.
  - cbn [fold_left]. rewrite IH, count_class_cons.
    destruct (decide (vehicle_class v = cls)) as [Heq|Hne].
    + rewrite Heq. case_decide as Hsome.
      * rewrite lookup_insert_eq. destruct Hsome as [n Hn]. rewrite Hn.
        simpl. f_equal. lia.
      * destruct (counts !! cls) as [n|] eqn:E; [|done].
        exfalso. apply Hsome. eauto.
    + case_decide; rewrite ?lookup_insert_ne by done;
        destruct (counts !! cls); simpl; f_equal; lia.
Qed.

(** X23. The counter always reports exactly the four known classes, each with
    the number of vehicles of that class; vehicles of any other class are
    ignored, they neither raise nor add a key. When every vehicle has a
    known class the four counts add up to the number of vehicles. *)
Theorem count_by_type_spec (vehicles : list DetectedVehicle) :
  (forall cls,
     count_by_type vehicles !! cls =
       if decide (cls ∈ known_classes) then Some (count_class cls vehicles)
       else None)
  /\ (Forall (fun v => vehicle_class v ∈ known_classes) vehicles ->
      count_class "car" vehicles + count_class "truck" vehicles
      + count_class "motorcycle" vehicles + count_class "bus" vehicles
      = Z.of_nat (length vehicles)).
Proof.
  split.
  - intros cls. unfold count_by_type. rewrite count_fold. unfold known_classes.
    case_decide as Hin.
    + repeat (apply elem_of_cons in Hin as [->|Hin]; [by simplify_map_eq|]).
      by apply elem_of_nil in Hin.
    + rewrite !lookup_insert_ne, lookup_singleton_ne; [done|..];
        intros <-; apply Hin; set_solver.
  - induction 1 as [|v vs Hv _ IH]; [reflexivity|].
    rewrite !count_class_cons. cbn [length]. unfold known_classes in Hv.
    repeat (apply elem_of_cons in Hv as [Heq|Hv];
            [rewrite Heq; repeat case_decide; simplify_eq; lia|]).
    by apply elem_of_nil in Hv.
Qed.

Lemma count_by_type_spec_witness :
  (forall cls,
     count_by_type detections !! cls =
       if decide (cls ∈ known_classes) then Some (count_class cls detections)
       else None)
  /\ (Forall (fun v => vehicle_class v ∈ known_classes) detections ->
      count_class "car" detections + count_class "truck" detections
      + count_class "motorcycle" detections + count_class "bus" detections
      = Z.of_nat (length detections)).
Proof. apply (count_by_type_spec detections). Defined.

End Counting.

(** ** Plate text cleaning *)

Section PlateText.

Example clean_plate_text_plain : clean_plate_text "ABC1234" = "ABC1234".
Proof. vm_compute. reflexivity. Qed.

Example clean_plate_text_punctuation : clean_plate_text "AB-C 12.34" = "ABC1234".
Proof. vm_compute. reflexivity. Qed.

Example clean_plate_text_lower : clean_plate_text "abc1234" = "ABC1234".
Proof. vm_compute. reflexivity. Qed.

Example clean_plate_text_between_digits :
  clean_plate_text "k1O1 s5b" = "K10155B".
Proof. vm_compute. reflexivity. Qed.

Lemma corrections_Some c d :
  corrections c = Some d -> isdigit d = true /\ isdigit c = false /\ is_upper c = true.
Proof.
  unfold corrections. repeat case_decide; intros [= <-]; subst; done.
Qed.

Lemma fixed_char_digit l j c :
  isdigit (fixed_char l j c) = true -> isdigit c = false ->
  digit_at l (j - 1) = true /\ digit_at l (j + 1) = true /\ (0 < j)%nat.
Proof.
  unfold fixed_char. destruct (corrections c) as [d|]; [|congruence].
  destruct (bool_decide (0 < j)%nat) eqn:Hj; simpl; [|congruence].
  apply bool_decide_eq_true in Hj.
  destruct (digit_at l (j - 1)), (digit_at l (j + 1)); simpl; try congruence.
  done.
Qed.

Lemma fixed_char_class l j c :
  is_upper c || isdigit c = true ->
  is_upper (fixed_char l j c) || isdigit (fixed_char l j c) = true.
Proof.
  intros Hc. unfold fixed_char.
  destruct (corrections c) as [d|] eqn:Hd; [|done].
  apply corrections_Some in Hd as [Hd _].
  destruct (_ && _ && _); [|done]. rewrite Hd. apply orb_true_r.
Qed.

(** The state of the loop after the indices below [k]: those positions
    hold their final character, the others are untouched. *)
Lemma fix_loop_prefix (l : list ascii) (k : nat) :
  (k <= length l)%nat ->
  length (fold_left fix_step (seq 0 k) l) = length l
  /\ forall j, fold_left fix_step (seq 0 k) l !! j =
       if decide (j < k)%nat then fixed_char l j <$> l !! j else l !! j.
Proof.
  induction k as [|k IH]; intros Hk.
  - split; [done|]. intros j. rewrite decide_False by lia. done.
  - destruct (IH ltac:(lia)) as [Hlen Hlook]. clear IH.
    rewrite seq_S, fold_left_app. cbn [fold_left Nat.add].
    set (r := fold_left fix_step (seq 0 k) l) in *.
    assert (Hk' : is_Some (l !! k)) by (apply lookup_lt_is_Some; lia).
    destruct Hk' as [c Hc].
    assert (Hrk : r !! k = Some c) by (rewrite Hlook, decide_False by lia; done).
    assert (Hnext : r !! (k + 1)%nat = l !! (k + 1)%nat)
      by (rewrite Hlook, decide_False by lia; done).
    unfold fix_step. rewrite Hrk.
    destruct (corrections c) as [d|] eqn:Hd.
    2:{ split; [done|]. intros j. rewrite Hlook.
        destruct (decide (j = k)) as [->|Hne].
        - rewrite decide_False, decide_True by lia. rewrite Hc. simpl.
          unfold fixed_char. by rewrite Hd.
        - repeat case_decide; try lia; done. }
    pose proof (corrections_Some _ _ Hd) as (_ & Hcnd & _).
    assert (Hprev : (0 < k)%nat ->
              from_option isdigit false (r !! (k - 1)%nat) = digit_at l (k - 1)).
    { intros Hpos. rewrite Hlook, decide_True by lia. unfold digit_at.
      destruct (l !! (k - 1)%nat) as [c'|] eqn:Hc'; [simpl|done].
      destruct (isdigit c') eqn:Hdig.
      - unfold fixed_char. destruct (corrections c') as [d'|] eqn:Hd'; [|done].
        apply corrections_Some in Hd' as (_ & Hn & _). congruence.
      - destruct (isdigit (fixed_char l (k - 1) c')) eqn:Hf; [|done].
        apply fixed_char_digit in Hf as (_ & Hnx & _); [|done].
        unfold digit_at in Hnx.
        replace (k - 1 + 1)%nat with k in Hnx by lia.
        rewrite Hc in Hnx. simpl in Hnx. congruence. }
    assert (Hcond :
      bool_decide (0 < k)%nat && from_option isdigit false (r !! (k - 1)%nat)
      && (bool_decide (k < length r - 1)%nat
          && from_option isdigit false (r !! (k + 1)%nat))
      = bool_decide (0 < k)%nat && digit_at l (k - 1) && digit_at l (k + 1)).
    { rewrite Hnext. fold (digit_at l (k + 1)).
      destruct (bool_decide (0 < k)%nat) eqn:Hpos; [|done].
      apply bool_decide_eq_true in Hpos. rewrite (Hprev Hpos). simpl.
      destruct (digit_at l (k - 1)); [simpl|done].
      destruct (digit_at l (k + 1)) eqn:Hn; [|by rewrite andb_false_r].
      rewrite andb_true_r. apply bool_decide_eq_true.
      unfold digit_at in Hn.
      destruct (l !! (k + 1)%nat) eqn:E; [|done].
      apply lookup_lt_Some in E. lia. }
    rewrite Hcond.
    destruct (bool_decide (0 < k)%nat && digit_at l (k - 1) && digit_at l (k + 1))
      eqn:Hfix.
    + split; [by rewrite length_insert|]. intros j.
      destruct (decide (j = k)) as [->|Hne].
      * rewrite list_lookup_insert_eq by lia.
        rewrite decide_True by lia. rewrite Hc. simpl.
        unfold fixed_char. by rewrite Hd, Hfix.
      * rewrite list_lookup_insert_ne by done. rewrite Hlook.
        repeat case_decide; try lia; done.
    + split; [done|]. intros j. rewrite Hlook.
      destruct (decide (j = k)) as [->|Hne].
      * rewrite decide_False, decide_True by lia. rewrite Hc. simpl.
        unfold fixed_char. by rewrite Hd, Hfix.
      * repeat case_decide; try lia; done.
Qed.

(** The loop as a whole rewrites every position from its original
    neighbours. *)
Lemma fix_loop_spec (l : list ascii) :
  fold_left fix_step (seq 0 (length l)) l = imap (fixed_char l) l.
Proof.
  destruct (fix_loop_prefix l (length l) ltac:(lia)) as [Hlen Hlook].
  apply list_eq. intros j. rewrite Hlook, list_lookup_imap.
  case_decide as Hj; [done|].
  rewrite (lookup_ge_None_2 l j) by lia. done.
Qed.

Lemma cleaned_class (text : string) :
  Forall (fun c => is_upper c || isdigit c = true) (cleaned_of text).
Proof.
  unfold cleaned_of. apply Forall_forall. intros c Hc.
  apply list_elem_of_filter in Hc as [Hc _]. by apply Is_true_true in Hc.
Qed.

Lemma upper_char_class c :
  is_upper c || isdigit c = true -> upper_char c = [c].
Proof.
  intros Hc. unfold upper_char, is_upper, isdigit, is_lower in *.
  destruct (97 <=? code c)%N eqn:E1; simpl.
  - apply N.leb_le in E1.
    destruct (65 <=? code c)%N, (code c <=? 90)%N eqn:E2,
             (48 <=? code c)%N, (code c <=? 57)%N eqn:E3;
      simpl in Hc; try discriminate;
      try (apply N.leb_le in E2; lia); apply N.leb_le in E3; lia.
  - destruct (code c =? 223)%N eqn:E2; [|done].
    apply N.eqb_eq in E2. rewrite E2 in *. discriminate.
Qed.

Lemma cleaned_of_class (l : list ascii) :
  Forall (fun c => is_upper c || isdigit c = true) l ->
  cleaned_of (string_of_list_ascii l) = l.
Proof.
  intros Hl. unfold cleaned_of. rewrite list_ascii_of_string_of_list_ascii.
  induction Hl as [|c l Hc _ IH]; [reflexivity|].
  cbn [map concat]. rewrite upper_char_class by done. cbn [app].
  rewrite filter_cons, decide_True by (by apply Is_true_true).
  by rewrite IH.
Qed.

Lemma fixed_class (l : list ascii) :
  Forall (fun c => is_upper c || isdigit c = true) l ->
  Forall (fun c => is_upper c || isdigit c = true) (imap (fixed_char l) l).
Proof.
  intros Hl. apply Forall_lookup. intros j c. rewrite list_lookup_imap.
  destruct (l !! j) as [c0|] eqn:E; [|done]. intros [= <-].
  apply fixed_char_class. by eapply Forall_lookup_1 in Hl.
Qed.

(** X24. The cleaned text consists of capital letters and digits only. *)
Theorem clean_plate_text_alphabet (text : string) :
  Forall (fun c => is_upper c || isdigit c = true)
         (list_ascii_of_string (clean_plate_text text)).
Proof.
  unfold clean_plate_text. cbv zeta.
  rewrite list_ascii_of_string_of_list_ascii, fix_loop_spec.
  apply fixed_class, cleaned_class.
Qed.

Lemma digit_at_fixed (l : list ascii) (i j : nat) :
  digit_at l j = false -> (i = j - 1 /\ 0 < j \/ i = j + 1)%nat ->
  digit_at (imap (fixed_char l) l) i = digit_at l i.
Proof.
  intros Hj Hi. unfold digit_at. rewrite list_lookup_imap.
  destruct (l !! i) as [c|] eqn:E; [simpl|done].
  destruct (isdigit c) eqn:Hc.
  - unfold fixed_char. destruct (corrections c) as [d|] eqn:Hd; [|done].
    apply corrections_Some in Hd as (_ & Hn & _). congruence.
  - destruct (isdigit (fixed_char l i c)) eqn:Hf; [|done].
    apply fixed_char_digit in Hf as (Hp & Hn & Hpos); [|done].
    destruct Hi as [[-> Hjpos]| ->].
    + replace (j - 1 + 1)%nat with j in Hn by lia. congruence.
    + replace (j + 1 - 1)%nat with j in Hp by lia. congruence.
Qed.

Lemma fixed_idempotent (l : list ascii) :
  imap (fixed_char (imap (fixed_char l) l)) (imap (fixed_char l) l)
  = imap (fixed_char l) l.
Proof.
  set (l' := imap (fixed_char l) l).
  apply list_eq. intros j. rewrite list_lookup_imap.
  destruct (l' !! j) as [c'|] eqn:E'; [simpl|done]. f_equal.
  unfold l' in E'. rewrite list_lookup_imap in E'.
  destruct (l !! j) as [c|] eqn:E; [|done]. injection E' as <-.
  unfold fixed_char at 1.
  destruct (corrections (fixed_char l j c)) as [d'|] eqn:Hd'; [|done].
  pose proof (corrections_Some _ _ Hd') as (_ & Hnd & _).
  assert (Hsame : fixed_char l j c = c).
  { unfold fixed_char in *. destruct (corrections c) as [d|] eqn:Hd; [|done].
    destruct (_ && _ && _); [|done].
    apply corrections_Some in Hd as (Hdd & _ & _). congruence. }
  rewrite Hsame in *.
  assert (Hjd : digit_at l j = false) by (unfold digit_at; by rewrite E).
  assert (Hcond : bool_decide (0 < j)%nat && digit_at l (j - 1) && digit_at l (j + 1)
                  = false).
  { unfold fixed_char in Hsame. rewrite Hd' in Hsame.
    destruct (_ && _ && _); [|done]. subst d'.
    apply corrections_Some in Hd' as (Hdd & Hcc & _). congruence. }
  destruct (bool_decide (0 < j)%nat) eqn:Hpos; [|done].
  apply bool_decide_eq_true in Hpos. simpl in *.
  fold l'. unfold l'.
  rewrite (digit_at_fixed l (j - 1) j) by (done || lia).
  rewrite (digit_at_fixed l (j + 1) j) by (done || lia).
  by rewrite Hcond.
Qed.

(** X25. Cleaning is idempotent: text that was cleaned once is a fixed point,
    a correction never creates a new place to correct. *)
Theorem clean_plate_text_idempotent (text : string) :
  clean_plate_text (clean_plate_text text) = clean_plate_text text.
Proof.
  unfold clean_plate_text. cbv zeta. rewrite !fix_loop_spec.
  rewrite cleaned_of_class by apply fixed_class, cleaned_class.
  by rewrite fixed_idempotent.
Qed.

(** X26. Cleaning only ever touches letters that stand between two digits: the
    result has one character per letter or digit of the upper-cased text,
    every digit stays what it was, and a character that changed was one of
    O, I, S, B, G with a digit on either side and is now a digit. *)
Theorem clean_plate_text_local (text : string) (j : nat) (c : ascii) :
  cleaned_of text !! j = Some c ->
  length (list_ascii_of_string (clean_plate_text text)) = length (cleaned_of text)
  /\ exists c', list_ascii_of_string (clean_plate_text text) !! j = Some c'
       /\ (isdigit c = true -> c' = c)
       /\ (c' <> c ->
             corrections c = Some c' /\ isdigit c' = true
             /\ (0 < j)%nat
             /\ digit_at (cleaned_of text) (j - 1) = true
             /\ digit_at (cleaned_of text) (j + 1) = true).
Proof.
  intros Hc. unfold clean_plate_text. cbv zeta.
  rewrite list_ascii_of_string_of_list_ascii, fix_loop_spec.
  split; [by rewrite length_imap|].
  exists (fixed_char (cleaned_of text) j c).
  split; [by rewrite list_lookup_imap, Hc|].
  unfold fixed_char. destruct (corrections c) as [d|] eqn:Hd.
  - pose proof (corrections_Some _ _ Hd) as (Hdd & Hcn & _).
    destruct (bool_decide (0 < j)%nat) eqn:Hpos; simpl;
      [|split; [done|congruence]].
    apply bool_decide_eq_true in Hpos.
    destruct (digit_at (cleaned_of text) (j - 1)); simpl;
      [|split; [done|congruence]].
    destruct (digit_at (cleaned_of text) (j + 1)); simpl;
      [|split; [done|congruence]].
    split; [congruence|]. done.
  - split; [done|congruence].
Qed.

Lemma clean_plate_text_local_witness :
  length (list_ascii_of_string (clean_plate_text "k1O1 s5b"))
    = length (cleaned_of "k1O1 s5b")
  /\ exists c', list_ascii_of_string (clean_plate_text "k1O1 s5b") !! 2%nat = Some c'
       /\ (isdigit "O" = true -> c' = "O"%char)
       /\ (c' <> "O"%char ->
             corrections "O" = Some c' /\ isdigit c' = true
             /\ (0 < 2)%nat
             /\ digit_at (cleaned_of "k1O1 s5b") (2 - 1) = true
             /\ digit_at (cleaned_of "k1O1 s5b") (2 + 1) = true).
Proof.
  apply (clean_plate_text_local "k1O1 s5b" 2 "O"%char). reflexivity.
Defined.

End PlateText.
